(** * Verification of the ESTA kernel core: capability manager, audit log,
    supervisor and module launch (engine/esta-kernel). *)

From stdpp Require Import base gmap sets list strings.
From Stdlib Require Import ZArith Ascii String Sorting.Sorted.
From Stdlib Require Floats.SpecFloat.

Local Open Scope Z_scope.

(** ** Byte-level helpers: bytes are [Z] values in [0, 256). *)

Module Bytes.

Definition bytes_of_string (s : string) : list Z :=
  map (fun c => Z.of_nat (nat_of_ascii c)) (list_ascii_of_string s).

(** [u64::to_le_bytes] *)
Fixpoint le_bytes (n : nat) (x : Z) : list Z :=
  match n with
  | O => []
  | S k => Z.land x 255 :: le_bytes k (Z.shiftr x 8)
  end.

Definition u64_to_le_bytes (x : Z) : list Z := le_bytes 8 x.

Fixpoint be_bytes (n : nat) (x : Z) : list Z :=
  match n with
  | O => []
  | S k => be_bytes k (Z.shiftr x 8) ++ [Z.land x 255]
  end.

Definition hex_digit (d : Z) : ascii :=
  ascii_of_nat (Z.to_nat (if d <? 10 then 48 + d else 87 + d)).

(** [hex::encode]: two lowercase hex digits per byte. *)
Fixpoint hex_encode (bs : list Z) : string :=
  match bs with
  | [] => EmptyString
  | b :: rest =>
      String (hex_digit (Z.shiftr b 4))
        (String (hex_digit (Z.land b 15)) (hex_encode rest))
  end.

End Bytes.

(** ** SHA-256 (FIPS 180-4), as computed by the [sha2] crate. *)

Module Sha256.
Import Bytes.

Definition mask32 (x : Z) : Z := Z.land x (Z.ones 32).
Definition add32 (x y : Z) : Z := mask32 (x + y).
Definition rotr (n x : Z) : Z :=
  Z.lor (Z.shiftr x n) (mask32 (Z.shiftl x (32 - n))).

Definition big_sigma0 x := Z.lxor (Z.lxor (rotr 2 x) (rotr 13 x)) (rotr 22 x).
Definition big_sigma1 x := Z.lxor (Z.lxor (rotr 6 x) (rotr 11 x)) (rotr 25 x).
Definition small_sigma0 x := Z.lxor (Z.lxor (rotr 7 x) (rotr 18 x)) (Z.shiftr x 3).
Definition small_sigma1 x := Z.lxor (Z.lxor (rotr 17 x) (rotr 19 x)) (Z.shiftr x 10).
Definition choose x y z := Z.lxor (Z.land x y) (Z.land (Z.lxor x (Z.ones 32)) z).
Definition majority x y z := Z.lxor (Z.lxor (Z.land x y) (Z.land x z)) (Z.land y z).

Definition round_constants : list Z :=
  [ 1116352408; 1899447441; 3049323471; 3921009573; 961987163; 1508970993;
    2453635748; 2870763221; 3624381080; 310598401; 607225278; 1426881987;
    1925078388; 2162078206; 2614888103; 3248222580; 3835390401; 4022224774;
    264347078; 604807628; 770255983; 1249150122; 1555081692; 1996064986;
    2554220882; 2821834349; 2952996808; 3210313671; 3336571891; 3584528711;
    113926993; 338241895; 666307205; 773529912; 1294757372; 1396182291;
    1695183700; 1986661051; 2177026350; 2456956037; 2730485921; 2820302411;
    3259730800; 3345764771; 3516065817; 3600352804; 4094571909; 275423344;
    430227734; 506948616; 659060556; 883997877; 958139571; 1322822218;
    1537002063; 1747873779; 1955562222; 2024104815; 2227730452; 2361852424;
    2428436474; 2756734187; 3204031479; 3329325298 ].

Definition initial_state : list Z :=
  [ 1779033703; 3144134277; 1013904242; 2773480762;
    1359893119; 2600822924; 528734635; 1541459225 ].

(** Message padding: 0x80, zeros up to 56 mod 64, then the bit length. *)
Definition pad (msg : list Z) : list Z :=
  let len := Z.of_nat (List.length msg) in
  let zeros := Z.to_nat ((55 - len) mod 64) in
  msg ++ [128] ++ repeat 0 zeros ++ be_bytes 8 (len * 8).

Fixpoint words_of_bytes (fuel : nat) (bs : list Z) : list Z :=
  match fuel, bs with
  | S f, b0 :: b1 :: b2 :: b3 :: rest =>
      (b0 * 16777216 + b1 * 65536 + b2 * 256 + b3) :: words_of_bytes f rest
  | _, _ => []
  end.

(** Message schedule: the 16 block words extended to 64, kept newest-first. *)
Fixpoint extend_schedule (n : nat) (rev_w : list Z) : list Z :=
  match n with
  | O => rev_w
  | S k =>
      let w t := nth (t - 1) rev_w 0 in
      let wt := add32 (add32 (small_sigma1 (w 2%nat)) (w 7%nat))
                      (add32 (small_sigma0 (w 15%nat)) (w 16%nat)) in
      extend_schedule k (wt :: rev_w)
  end.

Definition schedule (block : list Z) : list Z :=
  rev (extend_schedule 48 (rev block)).

Definition round (st : list Z) (kw : Z * Z) : list Z :=
  match st with
  | [a; b; c; d; e; f; g; h] =>
      let t1 := add32 (add32 (add32 h (big_sigma1 e)) (add32 (choose e f g) kw.1)) kw.2 in
      let t2 := add32 (big_sigma0 a) (majority a b c) in
      [add32 t1 t2; a; b; c; add32 d t1; e; f; g]
  | _ => st
  end.

Definition compress (hs : list Z) (block : list Z) : list Z :=
  let st := fold_left round (combine round_constants (schedule block)) hs in
  zip_with add32 hs st.

Fixpoint process (fuel : nat) (hs : list Z) (words : list Z) : list Z :=
  match fuel with
  | O => hs
  | S f =>
      match words with
      | [] => hs
      | _ => process f (compress hs (firstn 16 words)) (skipn 16 words)
      end
  end.

Definition digest (msg : list Z) : list Z :=
  let p := pad msg in
  let ws := words_of_bytes (List.length p) p in
  flat_map (be_bytes 4) (process (List.length ws) initial_state ws).

(** [hex::encode(Sha256::digest(..))] *)
Definition hex_digest (msg : list Z) : string := hex_encode (digest msg).

End Sha256.

(** ** Rust string and integer helpers *)

Module RustStr.

(** [u64] formatted with [{}]: decimal digits, no sign. *)
Fixpoint dec_digits (fuel : nat) (x : Z) (acc : string) : string :=
  match fuel with
  | O => acc
  | S f =>
      let d := ascii_of_nat (Z.to_nat (48 + x mod 10)) in
      if x <? 10 then String d acc else dec_digits f (x / 10) (String d acc)
  end.

Definition u64_to_dec (x : Z) : string := dec_digits 25 x EmptyString.

(** [str::split(c)]: every separator splits, empty pieces are kept. *)
Fixpoint split_on (sep : ascii) (s : string) : list string :=
  match s with
  | EmptyString => [EmptyString]
  | String c rest =>
      if Ascii.eqb c sep then EmptyString :: split_on sep rest
      else match split_on sep rest with
           | p :: ps => String c p :: ps
           | [] => [String c EmptyString]
           end
  end.

Definition digit_value (c : ascii) : option Z :=
  let n := Z.of_nat (nat_of_ascii c) in
  if (48 <=? n) && (n <=? 57) then Some (n - 48) else None.

Fixpoint parse_digits (s : string) (acc : Z) : option Z :=
  match s with
  | EmptyString => Some acc
  | String c rest =>
      match digit_value c with
      | None => None
      | Some d =>
          let v := acc * 10 + d in
          if v <? 2 ^ 64 then parse_digits rest v else None
      end
  end.

(** [<u64 as FromStr>::from_str]: empty input is an error, a leading ['+']
    is accepted unless it is the whole input, ['-'] is an invalid digit,
    and a value that overflows [u64] is an error. *)
Definition parse_u64 (s : string) : option Z :=
  match s with
  | EmptyString => None
  | String "+" EmptyString => None
  | String "-" EmptyString => None
  | String "+" rest => parse_digits rest 0
  | _ => parse_digits s 0
  end.

End RustStr.

(** [Result<T, E>] *)
Inductive Result (T E : Type) :=
  | Ok (v : T)
  | Err (e : E).
Arguments Ok {T E} v.
Arguments Err {T E} e.

(** ** Capability manager (security/capabilities.rs) *)

Module Capabilities.
Import Bytes RustStr.

Inductive CapabilityError :=
  | NotFound (token : string)
  | Revoked
  | Expired
  | InsufficientRights (required actual : list string)
  | UsageLimitExceeded
  | DelegationNotAllowed
  | InvalidToken
  | Unauthorized.

Definition u64_mod : Z := 2 ^ 64.

(** [CapabilityId::new]: [(timestamp << 32) | (counter & 0xFFFF_FFFF)]
    on [u64], so the shifted timestamp loses its high bits. *)
Definition CapabilityId_new (counter timestamp : Z) : Z :=
  Z.lor (Z.land (Z.shiftl timestamp 32) (Z.ones 64)) (Z.land counter 0xFFFFFFFF).

Inductive CapabilityRight :=
  | Read | Write | Delete | Execute | Create | List | Delegate | Revoke
  | AuditEmit | PersistenceRead | PersistenceWrite | Log.

#[global] Instance CapabilityRight_eq_dec : EqDecision CapabilityRight.
Proof. solve_decision. Defined.

Definition right_as_str (r : CapabilityRight) : string :=
  match r with
  | Read => "read" | Write => "write" | Delete => "delete"
  | Execute => "execute" | Create => "create" | List => "list"
  | Delegate => "delegate" | Revoke => "revoke" | AuditEmit => "audit_emit"
  | PersistenceRead => "persistence_read"
  | PersistenceWrite => "persistence_write" | Log => "log"
  end.

Inductive ResourceType :=
  | Memory | Channel | Module | AuditLog | Config | Process
  | Custom (name : string).

Record CapabilityValidity := {
  expires_at : option Z;
  max_uses : option Z;
  use_count : Z
}.

Definition validity_default : CapabilityValidity :=
  {| expires_at := None; max_uses := None; use_count := 0 |}.

(** [HashSet<CapabilityRight>] is a list read as a set; the iteration
    order of the Rust set is unspecified, the list order stands for it. *)
Record Capability := {
  id : Z;
  resource_type : ResourceType;
  resource_id : string;
  rights : list CapabilityRight;
  owner : string;
  parent_id : option Z;
  validity : CapabilityValidity;
  revoked : bool;
  created_at : Z
}.

Definition has_right (c : Capability) (r : CapabilityRight) : bool :=
  bool_decide (r ∈ rights c).

(** The two limit tests of [Capability::is_valid]. *)
Definition is_expired (v : CapabilityValidity) (now : Z) : bool :=
  match expires_at v with Some e => e <? now | None => false end.

Definition is_exhausted (v : CapabilityValidity) : bool :=
  match max_uses v with Some mu => mu <=? use_count v | None => false end.

(** [Capability::is_valid] *)
Definition is_valid (c : Capability) (now : Z) : Result unit CapabilityError :=
  if revoked c then Err Revoked
  else if is_expired (validity c) now then Err Expired
  else if is_exhausted (validity c) then Err UsageLimitExceeded
  else Ok tt.

(** [CapabilityToken::new]: [format!("cap_{}_{}", id, &hex(sha256(id_le ++ secret))[..16])] *)
Definition token_new (cap_id : Z) (secret : list Z) : string :=
  "cap_" ++ u64_to_dec cap_id ++ "_" ++
  substring 0 16 (Sha256.hex_digest (u64_to_le_bytes cap_id ++ secret)).

(** [CapabilityToken::capability_id] *)
Definition capability_id (token : string) : option Z :=
  match split_on "_" token with
  | p0 :: p1 :: _ => if String.eqb p0 "cap" then parse_u64 p1 else None
  | _ => None
  end.

Record CapabilityManager := {
  capabilities : gmap Z Capability;
  tokens : gmap string Z;
  revocations : gset Z;
  next_id : Z;
  secret : list Z
}.

Definition manager_new (secret : list Z) : CapabilityManager :=
  {| capabilities := ∅; tokens := ∅; revocations := ∅; next_id := 1; secret := secret |}.

(** [next_id.fetch_add(1)] on an [AtomicU64] (wrapping). *)
Definition bump (m : CapabilityManager) : CapabilityManager :=
  {| capabilities := capabilities m; tokens := tokens m; revocations := revocations m;
     next_id := (next_id m + 1) mod u64_mod; secret := secret m |}.

Definition install (m : CapabilityManager) (cid : Z) (c : Capability) (tok : string)
  : CapabilityManager :=
  {| capabilities := <[cid := c]> (capabilities m);
     tokens := <[tok := cid]> (tokens m);
     revocations := revocations m; next_id := next_id m; secret := secret m |}.

(** [create_capability]; [ts_id] and [ts_created] are the two readings of
    [current_timestamp()]. *)
Definition create_capability (m : CapabilityManager) (ts_id ts_created : Z)
    (rt : ResourceType) (rid : string) (rs : list CapabilityRight) (own : string)
    (v : CapabilityValidity) : Result string CapabilityError * CapabilityManager :=
  let cid := CapabilityId_new (next_id m) ts_id in
  let c := {| id := cid; resource_type := rt; resource_id := rid; rights := rs;
              owner := own; parent_id := None; validity := v; revoked := false;
              created_at := ts_created |} in
  let tok := token_new cid (secret m) in
  (Ok tok, install (bump m) cid c tok).

(** The rights of [required] that [c] lacks, in [required] order. *)
Definition missing_rights (c : Capability) (required : list CapabilityRight)
  : list CapabilityRight :=
  filter (fun r => has_right c r = false) required.

(** [validate]; [now] is the reading of [current_timestamp()]. *)
Definition validate (m : CapabilityManager) (now : Z) (token : string)
    (required : list CapabilityRight) : Result Capability CapabilityError :=
  match capability_id token with
  | None => Err InvalidToken
  | Some cid =>
      if bool_decide (cid ∈ revocations m) then Err Revoked else
      match capabilities m !! cid with
      | None => Err (NotFound token)
      | Some c =>
          match is_valid c now with
          | Err e => Err e
          | Ok _ =>
              match missing_rights c required with
              | [] => Ok c
              | missing => Err (InsufficientRights (map right_as_str missing)
                                                   (map right_as_str (rights c)))
              end
          end
      end
  end.

Definition incr_use (c : Capability) : Capability :=
  {| id := id c; resource_type := resource_type c; resource_id := resource_id c;
     rights := rights c; owner := owner c; parent_id := parent_id c;
     validity := {| expires_at := expires_at (validity c); max_uses := max_uses (validity c);
                    use_count := (use_count (validity c) + 1) mod u64_mod |};
     revoked := revoked c; created_at := created_at c |}.

Definition with_caps (m : CapabilityManager) (cs : gmap Z Capability) : CapabilityManager :=
  {| capabilities := cs; tokens := tokens m; revocations := revocations m;
     next_id := next_id m; secret := secret m |}.

(** [record_usage]: [use_count += 1] on [u64] (wrapping in a release build). *)
Definition record_usage (m : CapabilityManager) (token : string)
  : Result unit CapabilityError * CapabilityManager :=
  match capability_id token with
  | None => (Err InvalidToken, m)
  | Some cid =>
      match capabilities m !! cid with
      | None => (Err (NotFound token), m)
      | Some c => (Ok tt, with_caps m (<[cid := incr_use c]> (capabilities m)))
      end
  end.

(** [delegate]; [now] is the timestamp read inside [validate]. *)
Definition delegate (m : CapabilityManager) (now ts_id ts_created : Z) (token : string)
    (new_owner : string) (rs : list CapabilityRight) (v : CapabilityValidity)
  : Result string CapabilityError * CapabilityManager :=
  match validate m now token [Delegate] with
  | Err e => (Err e, m)
  | Ok parent =>
      let invalid := missing_rights parent rs in
      match invalid with
      | _ :: _ => (Err (InsufficientRights (map right_as_str invalid)
                                           (map right_as_str (rights parent))), m)
      | [] =>
          let cid := CapabilityId_new (next_id m) ts_id in
          let c := {| id := cid; resource_type := resource_type parent;
                      resource_id := resource_id parent; rights := rs; owner := new_owner;
                      parent_id := Some (id parent); validity := v; revoked := false;
                      created_at := ts_created |} in
          let tok := token_new cid (secret m) in
          (Ok tok, install (bump m) cid c tok)
      end
  end.

Definition set_revoked (c : Capability) : Capability :=
  {| id := id c; resource_type := resource_type c; resource_id := resource_id c;
     rights := rights c; owner := owner c; parent_id := parent_id c;
     validity := validity c; revoked := true; created_at := created_at c |}.

(** The second loop of [revoke]: mark each listed id that exists. *)
Fixpoint revoke_loop (ids : list Z) (cs : gmap Z Capability) (rv : gset Z) (count : nat)
  : gmap Z Capability * gset Z * nat :=
  match ids with
  | [] => (cs, rv, count)
  | i :: rest =>
      match cs !! i with
      | Some c => revoke_loop rest (<[i := set_revoked c]> cs) ({[i]} ∪ rv) (S count)
      | None => revoke_loop rest cs rv count
      end
  end.

(** [revoke]: the target and every capability whose [parent_id] is the
    target (one sweep over the table; [HashMap] order is unspecified). *)
Definition revoke (m : CapabilityManager) (token : string)
  : Result nat CapabilityError * CapabilityManager :=
  match capability_id token with
  | None => (Err InvalidToken, m)
  | Some cid =>
      let children := map fst (filter (fun p => parent_id p.2 = Some cid)
                                      (map_to_list (capabilities m))) in
      let '(cs, rv, count) := revoke_loop (cid :: children) (capabilities m) (revocations m) 0 in
      (Ok count, {| capabilities := cs; tokens := tokens m; revocations := rv;
                    next_id := next_id m; secret := secret m |})
  end.

(** The manager's mutating operations as a step relation; [validate],
    [list_capabilities] and [stats] leave the state as it is. *)
Inductive step : CapabilityManager -> CapabilityManager -> Prop :=
  | step_create m ts1 ts2 rt rid rs own v :
      step m (create_capability m ts1 ts2 rt rid rs own v).2
  | step_delegate m now ts1 ts2 tok own rs v :
      step m (delegate m now ts1 ts2 tok own rs v).2
  | step_record_usage m tok : step m (record_usage m tok).2
  | step_revoke m tok : step m (revoke m tok).2.

(** States of a manager created with [secret]. *)
Inductive reachable (sec : list Z) : CapabilityManager -> Prop :=
  | reachable_new : reachable sec (manager_new sec)
  | reachable_step m m' : reachable sec m -> step m m' -> reachable sec m'.

(** States reached while the id counter stays at most [2 ^ 32], i.e. fewer
    than [2 ^ 32] capabilities minted: [CapabilityId::new] keeps 32 bits of
    the counter, so up to there ids are distinct. *)
Inductive reachable_below (sec : list Z) : CapabilityManager -> Prop :=
  | below_new : reachable_below sec (manager_new sec)
  | below_step m m' : reachable_below sec m -> step m m' -> next_id m' <= 2 ^ 32 ->
      reachable_below sec m'.

(** Attenuation: each delegated capability's rights lie within those of
    the capability its [parent_id] names. *)
Definition attenuated (m : CapabilityManager) : Prop :=
  forall i d p, capabilities m !! i = Some d -> parent_id d = Some p ->
  exists pc, capabilities m !! p = Some pc /\ (forall r, r ∈ rights d -> r ∈ rights pc).

(** [list_capabilities]: the values of the table (in the map's order, as
    the [HashMap]'s is unspecified) owned by [o] and not revoked. *)
Definition list_capabilities (m : CapabilityManager) (o : string) : list Capability :=
  filter (fun c => owner c = o /\ revoked c = false) (map snd (map_to_list (capabilities m))).

Record CapabilityStats := {
  active_count : nat;
  total_count : nat;
  revoked_count : nat
}.

(** [stats] *)
Definition stats (m : CapabilityManager) : CapabilityStats :=
  {| active_count := List.length (filter (fun c => revoked c = false)
                                         (map snd (map_to_list (capabilities m))));
     total_count := size (capabilities m);
     revoked_count := size (revocations m) |}.




End Capabilities.

(** ** Audit log (security/audit.rs) *)

Module Audit.
Import Bytes RustStr.

Inductive AuditEventType :=
  | ModuleLoaded (module_name checksum : string)
  | ModuleUnloaded (module_name : string)
  | ModuleStarted (module_name : string)
  | ModuleStopped (module_name : string) (exit_code : Z)
  | ModuleCrashed (module_name error : string)
  | ModuleRestarted (module_name : string) (attempt : Z)
  | CapabilityCreated (cap_id owner : string) (rights : list string)
  | CapabilityValidated (cap_id operation : string)
  | CapabilityDenied (cap_id reason : string)
  | CapabilityDelegated (parent_id new_id new_owner : string)
  | CapabilityRevoked (cap_id : string) (cascade_count : Z)
  | SignatureVerified (module_name : string)
  | SignatureFailed (module_name error : string)
  | ExecutionStarted (module_name function : string)
  | ExecutionCompleted (module_name function : string) (fuel_used : Z)
  | ExecutionFailed (module_name function error : string)
  | FuelExhausted (module_name : string) (fuel_limit : Z)
  | MemoryLimitExceeded (module_name : string) (limit : Z)
  | KernelStarted (version : string)
  | KernelShutdown (reason : string)
  | SupervisorEscalation (module_name : string) (level : Z)
  | Custom (category message : string).

Definition backslash : ascii := ascii_of_nat 92.
Definition dquote : ascii := ascii_of_nat 34.

(** serde_json string escaping: the double quote and the backslash get a
    backslash, control characters use the short forms or a 4-digit
    [u00xx] escape with lowercase hex. *)
Definition json_escape_char (c : ascii) : string :=
  let n := nat_of_ascii c in
  if (n =? 34)%nat then String backslash (String dquote EmptyString)
  else if (n =? 92)%nat then String backslash (String backslash EmptyString)
  else if (n =? 8)%nat then "\b"
  else if (n =? 9)%nat then "\t"
  else if (n =? 10)%nat then "\n"
  else if (n =? 12)%nat then "\f"
  else if (n =? 13)%nat then "\r"
  else if (n <? 32)%nat then "\u00" ++ hex_encode [Z.of_nat n]
  else String c EmptyString.

Fixpoint json_escape (s : string) : string :=
  match s with
  | EmptyString => EmptyString
  | String c rest => json_escape_char c ++ json_escape rest
  end.

Definition quote : string := String dquote EmptyString.
Definition jstr (s : string) : string := quote ++ json_escape s ++ quote.

(** Integers as serde_json prints them ([i32] may be negative). *)
Definition jint (x : Z) : string :=
  if x <? 0 then "-" ++ u64_to_dec (- x) else u64_to_dec x.

Fixpoint join (sep : string) (xs : list string) : string :=
  match xs with
  | [] => EmptyString
  | [x] => x
  | x :: rest => x ++ sep ++ join sep rest
  end.

Definition jfield (name value : string) : string := jstr name ++ ":" ++ value.

(** Externally tagged enum: [{"Variant":{"field":value,...}}]. *)
Definition jvariant (tag : string) (fields : list (string * string)) : string :=
  "{" ++ jstr tag ++ ":{" ++ join "," (map (fun p => jfield p.1 p.2) fields) ++ "}}".

(** [serde_json::to_string(event)] *)
Definition event_json (e : AuditEventType) : string :=
  match e with
  | ModuleLoaded n c => jvariant "ModuleLoaded" [("module_name", jstr n); ("checksum", jstr c)]
  | ModuleUnloaded n => jvariant "ModuleUnloaded" [("module_name", jstr n)]
  | ModuleStarted n => jvariant "ModuleStarted" [("module_name", jstr n)]
  | ModuleStopped n x => jvariant "ModuleStopped" [("module_name", jstr n); ("exit_code", jint x)]
  | ModuleCrashed n er => jvariant "ModuleCrashed" [("module_name", jstr n); ("error", jstr er)]
  | ModuleRestarted n a => jvariant "ModuleRestarted" [("module_name", jstr n); ("attempt", jint a)]
  | CapabilityCreated i o rs =>
      jvariant "CapabilityCreated"
        [("cap_id", jstr i); ("owner", jstr o); ("rights", ("[" ++ join "," (map jstr rs) ++ "]")%string)]
  | CapabilityValidated i op => jvariant "CapabilityValidated" [("cap_id", jstr i); ("operation", jstr op)]
  | CapabilityDenied i r => jvariant "CapabilityDenied" [("cap_id", jstr i); ("reason", jstr r)]
  | CapabilityDelegated p ni no =>
      jvariant "CapabilityDelegated" [("parent_id", jstr p); ("new_id", jstr ni); ("new_owner", jstr no)]
  | CapabilityRevoked i k => jvariant "CapabilityRevoked" [("cap_id", jstr i); ("cascade_count", jint k)]
  | SignatureVerified n => jvariant "SignatureVerified" [("module_name", jstr n)]
  | SignatureFailed n er => jvariant "SignatureFailed" [("module_name", jstr n); ("error", jstr er)]
  | ExecutionStarted n f => jvariant "ExecutionStarted" [("module_name", jstr n); ("function", jstr f)]
  | ExecutionCompleted n f u =>
      jvariant "ExecutionCompleted" [("module_name", jstr n); ("function", jstr f); ("fuel_used", jint u)]
  | ExecutionFailed n f er =>
      jvariant "ExecutionFailed" [("module_name", jstr n); ("function", jstr f); ("error", jstr er)]
  | FuelExhausted n l => jvariant "FuelExhausted" [("module_name", jstr n); ("fuel_limit", jint l)]
  | MemoryLimitExceeded n l => jvariant "MemoryLimitExceeded" [("module_name", jstr n); ("limit", jint l)]
  | KernelStarted v => jvariant "KernelStarted" [("version", jstr v)]
  | KernelShutdown r => jvariant "KernelShutdown" [("reason", jstr r)]
  | SupervisorEscalation n l => jvariant "SupervisorEscalation" [("module_name", jstr n); ("level", jint l)]
  | Custom c msg => jvariant "Custom" [("category", jstr c); ("message", jstr msg)]
  end.

Record AuditEntry := {
  sequence : Z;
  timestamp : Z;
  event : AuditEventType;
  source : string;
  prev_hash : string;
  hash : string
}.

(** [AuditEntry::compute_hash] *)
Definition compute_hash (seq ts : Z) (ev : AuditEventType) (src prev : string) : string :=
  Sha256.hex_digest (u64_to_le_bytes seq ++ u64_to_le_bytes ts ++
                     bytes_of_string (event_json ev) ++ bytes_of_string src ++
                     bytes_of_string prev).

(** [AuditEntry::verify] *)
Definition entry_verify (e : AuditEntry) : bool :=
  String.eqb (compute_hash (sequence e) (timestamp e) (event e) (source e) (prev_hash e)) (hash e).

Record AuditEvent := { event_type : AuditEventType; event_source : string }.

Record AuditLog := {
  entries : list AuditEntry;   (* the VecDeque, front first *)
  seq_counter : Z;
  last_hash : string;
  max_entries : nat
}.

Definition genesis_hash : string := Sha256.hex_digest (bytes_of_string "ESTA-KERNEL-GENESIS").

(** [AuditLog::new] *)
Definition log_new (max : nat) : AuditLog :=
  {| entries := []; seq_counter := 0; last_hash := genesis_hash; max_entries := max |}.

(** [AuditLog::append]; [ts] is the reading of [current_timestamp()] and
    [*seq += 1] is taken on [u64] with wrap-around. *)
Definition append (log : AuditLog) (ts : Z) (ev : AuditEvent) : AuditEntry * AuditLog :=
  let sq := (seq_counter log + 1) mod 2 ^ 64 in
  let prev := last_hash log in
  let h := compute_hash sq ts (event_type ev) (event_source ev) prev in
  let entry := {| sequence := sq; timestamp := ts; event := event_type ev;
                  source := event_source ev; prev_hash := prev; hash := h |} in
  let kept := if (max_entries log <=? List.length (entries log))%nat
              then tail (entries log) else entries log in
  (entry, {| entries := kept ++ [entry]; seq_counter := sq; last_hash := h;
             max_entries := max_entries log |}).

(** Appending a sequence of (timestamp, event) pairs, oldest first. *)
Fixpoint append_all (log : AuditLog) (evs : list (Z * AuditEvent)) : AuditLog :=
  match evs with
  | [] => log
  | (ts, ev) :: rest => append_all (append log ts ev).2 rest
  end.

(** [AuditLog::get_all_entries] *)
Definition get_all_entries (log : AuditLog) : list AuditEntry := entries log.

Record ChainVerification := {
  valid : bool;
  entries_checked : Z;
  first_invalid : option Z
}.

Fixpoint verify_from (prev : string) (es : list AuditEntry) : option Z :=
  match es with
  | [] => None
  | e :: rest =>
      if negb (entry_verify e) then Some (sequence e)
      else if negb (String.eqb (prev_hash e) prev) then Some (sequence e)
      else verify_from (hash e) rest
  end.

(** [AuditLog::verify_chain]: the walk starts from the genesis hash. *)
Definition verify_chain (log : AuditLog) : ChainVerification :=
  match entries log with
  | [] => {| valid := true; entries_checked := 0; first_invalid := None |}
  | es =>
      match verify_from genesis_hash es with
      | Some s => {| valid := false; entries_checked := s; first_invalid := Some s |}
      | None => {| valid := true; entries_checked := Z.of_nat (List.length es);
                   first_invalid := None |}
      end
  end.

(** [AuditLog::with_defaults]: [AuditLogConfig::default()] keeps 10000 entries. *)
Definition log_with_defaults : AuditLog := log_new 10000%nat.

(** [get_entries_after] *)
Definition get_entries_after (log : AuditLog) (after_sequence : Z) : list AuditEntry :=
  filter (fun e => after_sequence < sequence e) (entries log).

(** [get_entries_in_range] *)
Definition get_entries_in_range (log : AuditLog) (start end_ : Z) : list AuditEntry :=
  filter (fun e => start <= timestamp e /\ timestamp e <= end_) (entries log).

(** [get_entries_by_source] *)
Definition get_entries_by_source (log : AuditLog) (src : string) : list AuditEntry :=
  filter (fun e => source e = src) (entries log).

(** [AuditStats]; its [max_entries] field is [stats_max_entries] here. *)
Record AuditStats := {
  total_entries : Z;
  entries_in_memory : nat;
  stats_max_entries : nat
}.

(** [AuditLog::stats] *)
Definition stats (log : AuditLog) : AuditStats :=
  {| total_entries := seq_counter log; entries_in_memory := List.length (entries log);
     stats_max_entries := max_entries log |}.

End Audit.

(** ** Supervisor (supervisor.rs) *)

Module Supervisor.
Import SpecFloat.

Inductive RestartStrategy := Permanent | Temporary | Transient.

Inductive EscalationLevel :=
  | Level1RestartWithState
  | Level2RestartClean
  | Level3ReloadModule
  | Level4RestartSupervisor
  | Level5SystemRestart.

(** The [#[derive(PartialOrd, Ord)]] order is the discriminant order. *)
Definition level_rank (l : EscalationLevel) : Z :=
  match l with
  | Level1RestartWithState => 1 | Level2RestartClean => 2
  | Level3ReloadModule => 3 | Level4RestartSupervisor => 4
  | Level5SystemRestart => 5
  end.

Definition level_name (l : EscalationLevel) : string :=
  match l with
  | Level1RestartWithState => "Level1RestartWithState"
  | Level2RestartClean => "Level2RestartClean"
  | Level3ReloadModule => "Level3ReloadModule"
  | Level4RestartSupervisor => "Level4RestartSupervisor"
  | Level5SystemRestart => "Level5SystemRestart"
  end.

(** [EscalationLevel::next] *)
Definition next (l : EscalationLevel) : EscalationLevel :=
  match l with
  | Level1RestartWithState => Level2RestartClean
  | Level2RestartClean => Level3ReloadModule
  | Level3ReloadModule => Level4RestartSupervisor
  | Level4RestartSupervisor => Level5SystemRestart
  | Level5SystemRestart => Level5SystemRestart
  end.

(** [f64] is IEEE binary64: [spec_float] with 53 bits of precision and
    maximal exponent 1024, rounding to nearest, ties to even. [f64_of_Z m e]
    is the [f64] nearest to [m * 2 ^ e]: [n as f64] for an integer [n] is
    [f64_of_Z n 0], and the literal [2.0] is [f64_of_Z 2 0]. *)
Definition f64_of_Z (m e : Z) : spec_float := binary_normalize 53 1024 m e false.

Definition f64_mul (x y : spec_float) : spec_float := SFmul 53 1024 x y.

(** [f64::powf] at the integer exponent [n] (a [u32] converted to [f64],
    which is exact), as the libm [pow] computes it: [x ^ 0] is [1] (also for
    NaN), NaN stays NaN, zeros and infinities keep their sign for odd [n],
    and a finite [x = (-1) ^ s * m * 2 ^ e] gives [m ^ n * 2 ^ (e * n)]
    rounded to nearest, with overflow to infinity. The exact power is
    returned whenever it is an [f64] (libm's error is below one ulp); a
    power strictly between two [f64] is taken correctly rounded. *)
Definition f64_powi (x : spec_float) (n : Z) : spec_float :=
  match n with
  | Zpos p =>
      match x with
      | S754_nan => S754_nan
      | S754_zero s => S754_zero (s && Z.odd (Zpos p))
      | S754_infinity s => S754_infinity (s && Z.odd (Zpos p))
      | S754_finite s m e => binary_round 53 1024 (s && Z.odd (Zpos p)) (Pos.pow m p) (e * Zpos p)
      end
  | _ => f64_of_Z 1 0
  end.

(** [f64::min]: when one operand is NaN the other one is returned. *)
Definition f64_min (x y : spec_float) : spec_float :=
  match x, y with
  | S754_nan, _ => y
  | _, S754_nan => x
  | _, _ => if SFltb y x then y else x
  end.

(** [x as u64]: NaN and negative values give [0], values from [2 ^ 64] up
    (and [+inf]) give [u64::MAX], the rest is truncated toward zero. *)
Definition f64_to_u64 (x : spec_float) : Z :=
  match x with
  | S754_finite false m e => Z.min (Z.shiftl (Zpos m) e) (2 ^ 64 - 1)
  | S754_infinity false => 2 ^ 64 - 1
  | _ => 0
  end.

(** [ChildSpec]. The delays are [u64] milliseconds, the backoff factor an
    [f64]. *)
Record ChildSpec := {
  child_id : string;
  manifest_path : string;
  restart : RestartStrategy;
  max_restarts : Z;
  restart_intensity_window : Z;  (* seconds *)
  base_restart_delay_ms : Z;
  max_restart_delay_ms : Z;
  backoff_factor : spec_float
}.

Definition spec_default : ChildSpec :=
  {| child_id := ""; manifest_path := ""; restart := Permanent; max_restarts := 5;
     restart_intensity_window := 60; base_restart_delay_ms := 1000;
     max_restart_delay_ms := 30000; backoff_factor := f64_of_Z 2 0 |}.

Inductive ChildState :=
  | Starting
  | Running
  | Crashed (error : string)
  | Restarting (attempt : Z)
  | Stopped (reason : string)
  | Terminated.

(** Instants are [Z] nanoseconds of a monotonic clock. *)
Record ChildInfo := {
  spec : ChildSpec;
  state : ChildState;
  restart_count : Z;
  restart_window_start : option Z;
  last_crash : option Z;
  escalation_level : EscalationLevel;
  total_crashes : Z
}.

Definition child_new (s : ChildSpec) : ChildInfo :=
  {| spec := s; state := Starting; restart_count := 0; restart_window_start := None;
     last_crash := None; escalation_level := Level1RestartWithState; total_crashes := 0 |}.

(** [Instant::duration_since] saturates at zero; [Duration::from_secs]. *)
Definition window_expired (c : ChildInfo) (start now : Z) : bool :=
  restart_intensity_window (spec c) * 1000000000 <? Z.max 0 (now - start).

(** [calculate_restart_delay], in milliseconds:
    [(base as f64 * factor.powf(attempt as f64)).min(max as f64) as u64]. *)
Definition calculate_restart_delay (c : ChildInfo) : Z :=
  let base := f64_of_Z (base_restart_delay_ms (spec c)) 0 in
  let delay_ms := f64_mul base (f64_powi (backoff_factor (spec c)) (restart_count c)) in
  f64_to_u64 (f64_min delay_ms (f64_of_Z (max_restart_delay_ms (spec c)) 0)).

(** [restart_limit_exceeded] *)
Definition restart_limit_exceeded (c : ChildInfo) (now : Z) : bool :=
  match restart_window_start c with
  | Some ws => if window_expired c ws now then false
               else max_restarts (spec c) <=? restart_count c
  | None => false
  end.

Definition child_with (c : ChildInfo) (st : ChildState) (rc : Z) (ws lc : option Z)
    (lvl : EscalationLevel) (tc : Z) : ChildInfo :=
  {| spec := spec c; state := st; restart_count := rc; restart_window_start := ws;
     last_crash := lc; escalation_level := lvl; total_crashes := tc |}.

Definition set_state (c : ChildInfo) (st : ChildState) : ChildInfo :=
  child_with c st (restart_count c) (restart_window_start c) (last_crash c)
    (escalation_level c) (total_crashes c).

(** [reset_window_if_expired] *)
Definition reset_window_if_expired (c : ChildInfo) (now : Z) : ChildInfo :=
  match restart_window_start c with
  | Some ws =>
      if window_expired c ws now
      then child_with c (state c) 0 (Some now) (last_crash c) Level1RestartWithState
             (total_crashes c)
      else c
  | None => c
  end.

Inductive SupervisorAction :=
  | Restart (delay_ms : Z) (path : string) (escalation : EscalationLevel)
  | Stop
  | Escalate (level : EscalationLevel).

Record SupervisorState := { children : gmap string ChildInfo }.

(** [report_crash]: the result and the child table afterwards. The error of
    an unknown id is the [anyhow] message. [now] is [Instant::now()];
    [total_crashes] is a [u64] and [restart_count] a [u32], both wrapping. *)
Definition report_crash (sup : SupervisorState) (cid error : string) (now : Z)
  : Result SupervisorAction string * SupervisorState :=
  match children sup !! cid with
  | None => (Err ("Child " ++ cid ++ " not found")%string, sup)
  | Some c0 =>
      let c1 := child_with c0 (Crashed error) (restart_count c0) (restart_window_start c0)
                  (Some now) (escalation_level c0) ((total_crashes c0 + 1) mod 2 ^ 64) in
      let put c := {| children := <[cid := c]> (children sup) |} in
      match restart (spec c1) with
      | Temporary => (Ok Stop, put (set_state c1 (Stopped "Temporary strategy - no restart")))
      | _ =>
        if (match restart (spec c1) with
            | Transient => String.eqb error "normal" || String.eqb error "shutdown"
            | _ => false end)
        then (Ok Stop, put (set_state c1 Terminated))
        else
          let c2 := reset_window_if_expired c1 now in
          let c3 := match restart_window_start c2 with
                    | None => child_with c2 (state c2) (restart_count c2) (Some now)
                                (last_crash c2) (escalation_level c2) (total_crashes c2)
                    | Some _ => c2
                    end in
          let escalated := restart_limit_exceeded c3 now in
          let lvl := if escalated then next (escalation_level c3) else escalation_level c3 in
          if escalated && (4 <=? level_rank lvl) then
            (Ok (Escalate lvl),
             put (child_with c3 (Stopped ("Restart limit exceeded, escalated to " ++ level_name lvl))
                    (restart_count c3) (restart_window_start c3) (last_crash c3) lvl
                    (total_crashes c3)))
          else
            let rc := ((if escalated then 0 else restart_count c3) + 1) mod 2 ^ 32 in
            let c4 := child_with c3 (state c3) rc (restart_window_start c3) (last_crash c3)
                        lvl (total_crashes c3) in
            let delay := calculate_restart_delay c4 in
            (Ok (Restart delay (manifest_path (spec c4)) lvl),
             put (set_state c4 (Restarting rc)))
      end
  end.

(** [register_child] *)
Definition register_child (sup : SupervisorState) (s : ChildSpec)
  : Result unit string * SupervisorState :=
  match children sup !! child_id s with
  | Some _ => (Err ("Child " ++ child_id s ++ " already registered")%string, sup)
  | None => (Ok tt, {| children := <[child_id s := child_new s]> (children sup) |})
  end.

(** [report_started] *)
Definition report_started (sup : SupervisorState) (cid : string)
  : Result unit string * SupervisorState :=
  match children sup !! cid with
  | Some c => (Ok tt, {| children := <[cid := set_state c Running]> (children sup) |})
  | None => (Err ("Child " ++ cid ++ " not found")%string, sup)
  end.

(** [unregister_child] *)
Definition unregister_child (sup : SupervisorState) (cid : string)
  : Result unit string * SupervisorState :=
  match children sup !! cid with
  | Some _ => (Ok tt, {| children := delete cid (children sup) |})
  | None => (Err ("Child " ++ cid ++ " not found")%string, sup)
  end.

(** [shutdown_all]: every child's state becomes [Terminated]. *)
Definition shutdown_all (sup : SupervisorState) : SupervisorState :=
  {| children := (fun c => set_state c Terminated) <$> children sup |}.

(** [execute_restart] with the supervisor's [restart_callback]; the
    [sleep(delay)] has no effect on the state. *)
Section ExecuteRestart.
Variable restart_callback : string -> string -> EscalationLevel -> Result unit string.

Definition execute_restart (sup : SupervisorState) (cid : string) (action : SupervisorAction)
  : Result unit string * SupervisorState :=
  match action with
  | Restart _ mp lvl =>
      match restart_callback cid mp lvl with
      | Err e => (Err e, sup)
      | Ok _ =>
          (Ok tt, match children sup !! cid with
                  | Some c => {| children := <[cid := set_state c Starting]> (children sup) |}
                  | None => sup
                  end)
      end
  | Stop => (Ok tt, sup)
  | Escalate _ => (Ok tt, sup)
  end.
End ExecuteRestart.

End Supervisor.

(** ** Kernel façade: [launch_module] (kernel.rs) *)

Module Kernel.
Import Bytes.

Record ModuleManifest := {
  name : string;
  path : string;
  checksum : string;
  capabilities : list string;
  signature : option string
}.

(** The kernel's own [Capability] enum (host-function grants). *)
Inductive KCapability := Log | AuditEmit | PersistenceRead | PersistenceWrite.

(** [Capability::from_str] *)
Definition kcap_from_str (s : string) : option KCapability :=
  if String.eqb s "log" then Some Log
  else if String.eqb s "audit_emit" then Some AuditEmit
  else if String.eqb s "persistence_read" then Some PersistenceRead
  else if String.eqb s "persistence_write" then Some PersistenceWrite
  else None.

(** [parse_capabilities] *)
Definition parse_capabilities (m : ModuleManifest) : list KCapability :=
  omap kcap_from_str (capabilities m).

Record ExecutionConfig := {
  max_fuel : Z;
  require_signatures : bool
}.

(** A registry entry: [ModuleHandle] without the task handle and stats. *)
Record ModuleHandle := { handle_name : string; handle_caps : list KCapability }.

Record KernelState := {
  registry : gmap string ModuleHandle;
  config : ExecutionConfig;
  signature_verifier : option string;  (* the trusted public key *)
  audit_log : Audit.AuditLog
}.

Inductive LaunchError :=
  | IoError (p : string)
  | BadDescriptor
  | ChecksumMismatch (expected actual : string)
  | SignatureError (msg : string)
  | WasmError (msg : string).

(** The collaborators [launch_module] calls: the file system, serde_json,
    the Ed25519 verifier and wasmtime. *)
Section Launch.
Variable read_file : string -> option (list Z).
Variable parse_manifest : list Z -> option ModuleManifest.
(** [SignatureVerifier::verify_module(bytes, checksum, signature)] for a key. *)
Variable verify_module : string -> list Z -> string -> string -> bool.
Variable wasm_module : Type.
Variable compile_module : list Z -> option wasm_module.
Variable link_host_functions : list KCapability -> bool.
Variable instantiate : wasm_module -> list KCapability -> bool.

(** [verify_checksum] *)
Definition verify_checksum (bytes : list Z) (expected : string) : Result unit LaunchError :=
  let actual := Sha256.hex_digest bytes in
  if String.eqb actual expected then Ok tt else Err (ChecksumMismatch expected actual).

(** [verify_signature]: strict when [require_signatures], advisory otherwise. *)
Definition verify_signature (k : KernelState) (bytes : list Z) (m : ModuleManifest)
  : Result unit LaunchError :=
  if require_signatures (config k) then
    match signature m with
    | None => Err (SignatureError "Signature required but not provided")
    | Some sg =>
        match signature_verifier k with
        | None => Err (SignatureError "no verifier configured")
        | Some key => if verify_module key bytes (checksum m) sg then Ok tt
                      else Err (SignatureError "Signature verification failed")
        end
    end
  else Ok tt.

Definition with_audit (k : KernelState) (l : Audit.AuditLog) : KernelState :=
  {| registry := registry k; config := config k; signature_verifier := signature_verifier k;
     audit_log := l |}.

(** [launch_module]; [ts] is the audit log's timestamp reading. The spawned
    task runs [_start] later and is not part of the call. *)
Definition launch_module (k : KernelState) (ts : Z) (manifest_path : string)
  : Result unit LaunchError * KernelState :=
  match read_file manifest_path with
  | None => (Err (IoError manifest_path), k)
  | Some mbytes =>
  match parse_manifest mbytes with
  | None => (Err BadDescriptor, k)
  | Some m =>
  match read_file (path m) with
  | None => (Err (IoError (path m)), k)
  | Some bytes =>
  match verify_checksum bytes (checksum m) with
  | Err e => (Err e, k)
  | Ok _ =>
  match verify_signature k bytes m with
  | Err e => (Err e, k)
  | Ok _ =>
  let caps := parse_capabilities m in
  let k1 := with_audit k (Audit.append (audit_log k) ts
               {| Audit.event_type := Audit.ModuleLoaded (name m) (checksum m);
                  Audit.event_source := "kernel" |}).2 in
  match compile_module bytes with
  | None => (Err (WasmError "compile"), k1)
  | Some wm =>
  if negb (link_host_functions caps) then (Err (WasmError "link"), k1) else
  if negb (instantiate wm caps) then (Err (WasmError "instantiate"), k1) else
  (Ok tt, {| registry := <[name m := {| handle_name := name m; handle_caps := caps |}]>
                           (registry k1);
             config := config k1; signature_verifier := signature_verifier k1;
             audit_log := audit_log k1 |})
  end end end end end end.
End Launch.

(** [ModuleRegistry]: the map from module names to handles. *)
Definition ModuleRegistry : Type := gmap string ModuleHandle.

(** [ModuleRegistry::register]: inserts, replacing an entry of the same name. *)
Definition register (reg : ModuleRegistry) (nm : string) (caps : list KCapability)
  : ModuleRegistry :=
  <[nm := {| handle_name := nm; handle_caps := caps |}]> reg.

(** [ModuleRegistry::unregister]: the removed entry stands for its task handle. *)
Definition unregister (reg : ModuleRegistry) (nm : string)
  : option ModuleHandle * ModuleRegistry :=
  (reg !! nm, delete nm reg).

(** [ModuleRegistry::get_module_capabilities] *)
Definition get_module_capabilities (reg : ModuleRegistry) (nm : string)
  : option (list KCapability) :=
  handle_caps <$> reg !! nm.

(** [ModuleRegistry::list_modules]: the keys, in the map's order. *)
Definition list_modules (reg : ModuleRegistry) : list string :=
  map fst (map_to_list reg).

(** [ModuleRegistry::shutdown_all]: [drain] aborts every task and empties the map. *)
Definition registry_shutdown_all (reg : ModuleRegistry) : ModuleRegistry := ∅.

(** [Kernel::shutdown]; [ts] is the audit log's timestamp reading. *)
Definition shutdown (k : KernelState) (ts : Z) : KernelState :=
  {| registry := registry_shutdown_all (registry k); config := config k;
     signature_verifier := signature_verifier k;
     audit_log := (Audit.append (audit_log k) ts
                     {| Audit.event_type := Audit.KernelShutdown "normal shutdown";
                        Audit.event_source := "kernel" |}).2 |}.

(** [Kernel::list_modules] *)
Definition kernel_list_modules (k : KernelState) : list string := list_modules (registry k).

End Kernel.

(** ** Module signatures (security/sig.rs) *)

Module Sig.
Import Bytes.

(** [hex::FromHexError] *)
Inductive FromHexError :=
  | InvalidHexCharacter (c : ascii) (index : nat)
  | OddLength.

(** The [val] of the [hex] crate: a digit of either case. *)
Definition hex_val (c : ascii) : option Z :=
  let n := Z.of_nat (nat_of_ascii c) in
  if (65 <=? n) && (n <=? 70) then Some (n - 65 + 10)
  else if (97 <=? n) && (n <=? 102) then Some (n - 97 + 10)
  else if (48 <=? n) && (n <=? 57) then Some (n - 48)
  else None.

(** The pairs of digits, from index [i], stopping at the first bad digit. *)
Fixpoint decode_pairs (s : string) (i : nat) : Result (list Z) FromHexError :=
  match s with
  | String a (String b rest) =>
      match hex_val a with
      | None => Err (InvalidHexCharacter a i)
      | Some x =>
          match hex_val b with
          | None => Err (InvalidHexCharacter b (S i))
          | Some y =>
              match decode_pairs rest (S (S i)) with
              | Ok bs => Ok (Z.lor (Z.shiftl x 4) y :: bs)
              | Err e => Err e
              end
          end
      end
  | _ => Ok []
  end.

(** [hex::decode]: an odd number of digits is refused before any digit is read. *)
Definition hex_decode (s : string) : Result (list Z) FromHexError :=
  if Nat.odd (String.length s) then Err OddLength else decode_pairs s 0.

(** The reasons carried by [InvalidFormat], one per [format!] that builds it. *)
Inductive FormatError :=
  | InvalidHex (e : FromHexError)                (* "Invalid hex: {}" *)
  | InvalidSignatureHex (e : FromHexError)       (* "Invalid signature hex: {}" *)
  | SignatureLength (got : nat)                  (* "Expected 64 byte signature, got {} bytes" *)
  | ChecksumMismatch (expected actual : string). (* "Checksum mismatch: expected {}, got {}" *)

Inductive SignatureError :=
  | InvalidSignature
  | MissingSignature
  | InvalidPublicKey
  | InvalidFormat (reason : FormatError)
  | KeyGenerationFailed (msg : string).

Record SignatureVerifier := { public_key : list Z }.

(** [SignatureVerifier::new] *)
Definition verifier_new (public_key_hex : string) : Result SignatureVerifier SignatureError :=
  match hex_decode public_key_hex with
  | Err e => Err (InvalidFormat (InvalidHex e))
  | Ok pk => if negb (List.length pk =? 32)%nat then Err InvalidPublicKey
             else Ok {| public_key := pk |}
  end.

(** [SignatureVerifier::from_bytes] *)
Definition verifier_from_bytes (pk : list Z) : Result SignatureVerifier SignatureError :=
  if negb (List.length pk =? 32)%nat then Err InvalidPublicKey else Ok {| public_key := pk |}.

(** [SignatureVerifier::public_key_hex] *)
Definition verifier_public_key_hex (v : SignatureVerifier) : string := hex_encode (public_key v).

(** ring's Ed25519: [UnparsedPublicKey::verify] (public key, message,
    signature), [Ed25519KeyPair::sign] and [public_key] of a key pair. *)
Section Ed25519.
Variable ed25519_verify : list Z -> list Z -> list Z -> bool.
Variable KeyPair : Type.
Variable ed25519_sign : KeyPair -> list Z -> list Z.
Variable ed25519_public_key : KeyPair -> list Z.

(** [SignatureVerifier::verify] *)
Definition verify (v : SignatureVerifier) (data : list Z) (signature_hex : string)
  : Result unit SignatureError :=
  match hex_decode signature_hex with
  | Err e => Err (InvalidFormat (InvalidSignatureHex e))
  | Ok sg =>
      if negb (List.length sg =? 64)%nat then Err (InvalidFormat (SignatureLength (List.length sg)))
      else if ed25519_verify (public_key v) data sg then Ok tt else Err InvalidSignature
  end.

(** [SignatureVerifier::verify_module]: the checksum first, then the
    signature over [checksum.as_bytes() ++ module_bytes]. *)
Definition verify_module (v : SignatureVerifier) (module_bytes : list Z) (checksum : string)
    (signature_hex : string) : Result unit SignatureError :=
  let actual_checksum := Sha256.hex_digest module_bytes in
  if negb (String.eqb actual_checksum checksum)
  then Err (InvalidFormat (ChecksumMismatch checksum actual_checksum))
  else verify v (bytes_of_string checksum ++ module_bytes) signature_hex.

(** [ModuleSigner::sign] *)
Definition sign (kp : KeyPair) (data : list Z) : string := hex_encode (ed25519_sign kp data).

(** [ModuleSigner::sign_module] *)
Definition sign_module (kp : KeyPair) (module_bytes : list Z) (checksum : string) : string :=
  sign kp (bytes_of_string checksum ++ module_bytes).

(** [ModuleSigner::public_key_hex] *)
Definition signer_public_key_hex (kp : KeyPair) : string := hex_encode (ed25519_public_key kp).
End Ed25519.

End Sig.

(** * Properties *)

(** ** Sanity checks of the byte and string helpers *)

Example sha256_abc :
  Sha256.hex_digest (Bytes.bytes_of_string "abc") =
  "ba7816bf8f01cfea414140de5dae2223b00361a396177a9cb410ff61f20015ad"%string.
Proof. vm_compute. reflexivity. Qed.

Example sha256_two_blocks :
  Sha256.hex_digest (Bytes.bytes_of_string
    "abcdbcdecdefdefgefghfghighijhijkijkljklmklmnlmnomnopnopq") =
  "248d6a61d20638b8e5c026930c3e6039a33ce45964ff2167f6ecedd419db06c1"%string.
Proof. vm_compute. reflexivity. Qed.

Example split_on_token :
  RustStr.split_on "_" "cap_12_ab" = ["cap"; "12"; "ab"]%string.
Proof. reflexivity. Qed.

Example parse_u64_cases :
  RustStr.parse_u64 "42" = Some 42 /\ RustStr.parse_u64 "+7" = Some 7 /\
  RustStr.parse_u64 "" = None /\ RustStr.parse_u64 "-1" = None /\
  RustStr.parse_u64 "18446744073709551616" = None.
Proof. vm_compute. repeat split. Qed.

(** ** Capability manager *)

Module CapabilityProofs.
Import Capabilities.

Lemma has_right_false c r : has_right c r = false <-> r ∉ rights c.
Proof. unfold has_right. rewrite bool_decide_eq_false. done. Qed.

Lemma missing_rights_nil c R :
  missing_rights c R = [] <-> (forall r, r ∈ R -> r ∈ rights c).
Proof.
  unfold missing_rights. split.
  - intros H r Hr. destruct (decide (r ∈ rights c)) as [|Hn]; [done|].
    assert (r ∈ filter (fun r => has_right c r = false) R) as Hf.
    { apply list_elem_of_filter. split; [by apply has_right_false|done]. }
    rewrite H in Hf. set_solver.
  - intros H. induction R as [|x R IH]; [done|]. rewrite filter_cons.
    case_decide as Hx.
    + apply has_right_false in Hx. exfalso. apply Hx, H. set_solver.
    + apply IH. intros r Hr. apply H. set_solver.
Qed.

Lemma is_valid_ok c now :
  is_valid c now = Ok tt <->
  revoked c = false /\ is_expired (validity c) now = false /\ is_exhausted (validity c) = false.
Proof.
  unfold is_valid.
  destruct (revoked c), (is_expired _ _), (is_exhausted _); intuition congruence.
Qed.

Lemma is_expired_false v now :
  is_expired v now = false <-> (forall e, expires_at v = Some e -> now <= e).
Proof.
  unfold is_expired. destruct (expires_at v) as [e|].
  - rewrite Z.ltb_ge. split; [intros ? ? [= <-]; lia | intros H; by apply H].
  - split; [congruence | done].
Qed.

Lemma is_exhausted_false v :
  is_exhausted v = false <-> (forall mu, max_uses v = Some mu -> use_count v < mu).
Proof.
  unfold is_exhausted. destruct (max_uses v) as [mu|].
  - rewrite Z.leb_gt. split; [intros ? ? [= <-]; lia | intros H; by apply H].
  - split; [congruence | done].
Qed.

(** C5: [validate] succeeds exactly when the id is not in the revocation set,
    the capability exists, its flag is unset, it has not expired, its use
    count is below [max_uses] and it holds every required right; each
    failing check yields its error, in the order revocation set, flag,
    expiry, usage limit, rights. *)
Theorem validate_checks (m : CapabilityManager) (now : Z) (token : string)
    (R : list CapabilityRight) (cid : Z) :
  capability_id token = Some cid ->
  (forall c, validate m now token R = Ok c <->
     ((cid ∉ revocations m) /\ capabilities m !! cid = Some c /\ revoked c = false /\
      (forall e, expires_at (validity c) = Some e -> now <= e) /\
      (forall mu, max_uses (validity c) = Some mu -> use_count (validity c) < mu) /\
      (forall r, r ∈ R -> r ∈ rights c))) /\
  (cid ∈ revocations m -> validate m now token R = Err Revoked) /\
  (forall c, cid ∉ revocations m -> capabilities m !! cid = Some c ->
     (revoked c = true -> validate m now token R = Err Revoked) /\
     (revoked c = false -> forall e, expires_at (validity c) = Some e -> e < now ->
        validate m now token R = Err Expired) /\
     (revoked c = false -> is_expired (validity c) now = false ->
        forall mu, max_uses (validity c) = Some mu -> mu <= use_count (validity c) ->
        validate m now token R = Err UsageLimitExceeded) /\
     (revoked c = false -> is_expired (validity c) now = false ->
        is_exhausted (validity c) = false -> missing_rights c R <> [] ->
        validate m now token R =
          Err (InsufficientRights (map right_as_str (missing_rights c R))
                                  (map right_as_str (rights c))))).
Proof.
  intros Hid. unfold validate. rewrite Hid. split; [|split].
  - intros c. case_bool_decide as Hrev.
    + split; [congruence | intros (Hn & _); done].
    + destruct (capabilities m !! cid) as [c0|] eqn:Hc.
      * destruct (is_valid c0 now) as [[]|e] eqn:Hv.
        -- apply is_valid_ok in Hv as (Hr & He & Hx).
           destruct (missing_rights c0 R) as [|x xs] eqn:Hm.
           ++ pose proof (proj1 (missing_rights_nil _ _) Hm) as Hall. split.
              ** intros [= <-]. rewrite is_expired_false in He.
                 rewrite is_exhausted_false in Hx. done.
              ** intros (_ & [= <-] & _). done.
           ++ split; [congruence|]. intros (_ & [= <-] & _ & _ & _ & Hall).
              pose proof (proj2 (missing_rights_nil _ _) Hall) as Hnil. congruence.
        -- split; [congruence|]. intros (_ & [= <-] & Hr & He & Hx & _).
           rewrite <- is_expired_false in He. rewrite <- is_exhausted_false in Hx.
           unfold is_valid in Hv. rewrite Hr, He, Hx in Hv. done.
      * split; [congruence | intros (_ & ? & _); done].
  - intros Hin. case_bool_decide; done.
  - intros c Hn Hc. case_bool_decide; [done|]. rewrite Hc. unfold is_valid.
    split; [|split; [|split]].
    + intros ->. done.
    + intros -> e He Hlt. unfold is_expired. rewrite He.
      by replace (e <? now) with true by lia.
    + intros -> -> mu Hmu Hle. unfold is_exhausted. rewrite Hmu.
      by replace (mu <=? use_count (validity c)) with true by lia.
    + intros -> -> -> Hm. destruct (missing_rights c R); done.
Qed.

(** A concrete manager: one capability with [max_uses = 2] used twice. *)
Definition secret0 : list Z := repeat 0 32.
Definition s_used : CapabilityManager :=
  (create_capability (manager_new secret0) 0 0 Module "test-module" [Read] "owner1"
     {| expires_at := None; max_uses := Some 2; use_count := 2 |}).2.

Lemma validate_witness :
  capability_id "cap_1_b68f593141969cfe" = Some 1 /\
  validate s_used 0 "cap_1_b68f593141969cfe" [Read] = Err UsageLimitExceeded.
Proof.
  split; [reflexivity|].
  destruct (validate_checks s_used 0 "cap_1_b68f593141969cfe" [Read] 1 eq_refl)
    as (_ & _ & Hc).
  assert (Hn : (1 ∉ revocations s_used)).
  { assert (Hr : revocations s_used = ∅) by reflexivity. rewrite Hr. set_solver. }
  destruct (capabilities s_used !! 1) as [c0|] eqn:Hc0;
    [|vm_compute in Hc0; discriminate Hc0].
  destruct (Hc c0 Hn eq_refl) as (_ & _ & H3 & _).
  vm_compute in Hc0. injection Hc0 as <-.
  apply (H3 eq_refl eq_refl 2 eq_refl). simpl. lia.
Defined.

(** C10: [record_usage] checks nothing but the token's shape and the id's
    presence: on an existing id it bumps [use_count] (a [u64], so modulo
    [2 ^ 64]) and returns [Ok] whatever the revoked flag, expiry or usage
    limit, so the count can pass [max_uses]; otherwise it fails with
    [InvalidToken] or [NotFound] and leaves the manager as it was. *)
Theorem record_usage_unchecked (m : CapabilityManager) (token : string) :
  (capability_id token = None -> record_usage m token = (Err InvalidToken, m)) /\
  (forall cid, capability_id token = Some cid -> capabilities m !! cid = None ->
     record_usage m token = (Err (NotFound token), m)) /\
  (forall cid c, capability_id token = Some cid -> capabilities m !! cid = Some c ->
     exists m', record_usage m token = (Ok tt, m') /\
       capabilities m' = <[cid := incr_use c]> (capabilities m) /\
       use_count (validity (incr_use c)) = (use_count (validity c) + 1) mod 2 ^ 64 /\
       revoked (incr_use c) = revoked c /\
       expires_at (validity (incr_use c)) = expires_at (validity c) /\
       max_uses (validity (incr_use c)) = max_uses (validity c) /\
       (0 <= use_count (validity c) < 2 ^ 64 - 1 ->
          use_count (validity (incr_use c)) = use_count (validity c) + 1 /\
          forall mu, max_uses (validity c) = Some mu -> mu <= use_count (validity c) ->
          mu < use_count (validity (incr_use c)))).
Proof.
  unfold record_usage. split; [|split].
  - intros ->. done.
  - intros cid -> ->. done.
  - intros cid c -> ->. eexists. split; [reflexivity|].
    do 5 (split; [reflexivity|]). simpl. intros Hb.
    rewrite Z.mod_small by (unfold u64_mod; lia). split; [done|]. intros. lia.
Qed.

Lemma record_usage_witness :
  exists m', record_usage s_used "cap_1_b68f593141969cfe" = (Ok tt, m') /\
    (capabilities m' !! 1) ≫= (fun c => Some (use_count (validity c))) = Some 3.
Proof.
  destruct (record_usage_unchecked s_used "cap_1_b68f593141969cfe") as (_ & _ & H).
  destruct (H 1 _ eq_refl eq_refl) as (m' & Hr & Hc & _).
  exists m'. split; [exact Hr|]. rewrite Hc. vm_compute. reflexivity.
Defined.

(** A manager holding one full-access capability (id 1), and a delegation
    chain parent (id 1) -> A (id 2) -> B (id 3) built on it. *)
Definition full_rights : list CapabilityRight :=
  [Read; Write; Delete; Execute; Create; List; Delegate; Revoke].

Definition s_full : CapabilityManager :=
  (create_capability (manager_new secret0) 0 0 Module "test-module" full_rights "owner1"
     validity_default).2.

Definition s_a : CapabilityManager :=
  (delegate s_full 0 0 0 (token_new 1 secret0) "A" [Read; Delegate] validity_default).2.

Definition s_b : CapabilityManager :=
  (delegate s_a 0 0 0 (token_new 2 secret0) "B" [Read] validity_default).2.

(** [validate] reads only the id parsed out of the token: two tokens with
    the same id are accepted alike, whatever follows the id. *)
Lemma validate_same_id (m : CapabilityManager) now (t1 t2 : string) R c :
  capability_id t1 = capability_id t2 ->
  validate m now t1 R = Ok c -> validate m now t2 R = Ok c.
Proof.
  unfold validate. intros <-. destruct (capability_id t1) as [cid|]; [|done].
  case_bool_decide; [done|]. destruct (capabilities m !! cid); done.
Qed.

(** C1 (the code misses the check): a token that the manager never minted,
    with the id of the live capability 1 and a made-up suffix, is accepted
    by [validate], which returns the capability. *)
Theorem forged_token_validates :
  token_new 1 secret0 = "cap_1_b68f593141969cfe" /\
  "cap_1_0000000000000000" <> token_new 1 secret0 /\
  tokens s_full !! "cap_1_0000000000000000" = None /\
  (exists c, capabilities s_full !! 1 = Some c /\ revoked c = false /\
     validate s_full 0 "cap_1_0000000000000000" [Read] = Ok c /\
     validate s_full 0 "cap_1" full_rights = Ok c).
Proof.
  split; [vm_compute; reflexivity|]. split; [vm_compute; discriminate|].
  split; [vm_compute; reflexivity|].
  eexists. split; [vm_compute; reflexivity|]. split; [reflexivity|].
  split; vm_compute; reflexivity.
Qed.

(** C2, as the claim states it, fails on the chain parent -> A -> B:
    [revoke] of the parent returns 2 and revokes the parent and A, but the
    grandchild B still validates. *)
Lemma revoke_leaves_grandchild :
  (delegate s_full 0 0 0 (token_new 1 secret0) "A" [Read; Delegate] validity_default).1
    = Ok (token_new 2 secret0) /\
  (delegate s_a 0 0 0 (token_new 2 secret0) "B" [Read] validity_default).1
    = Ok (token_new 3 secret0) /\
  (revoke s_b (token_new 1 secret0)).1 = Ok 2%nat /\
  validate (revoke s_b (token_new 1 secret0)).2 0 (token_new 1 secret0) [Read] = Err Revoked /\
  validate (revoke s_b (token_new 1 secret0)).2 0 (token_new 2 secret0) [Read] = Err Revoked /\
  exists c, validate (revoke s_b (token_new 1 secret0)).2 0 (token_new 3 secret0) [Read] = Ok c /\
            parent_id c = Some 2.
Proof.
  do 5 (split; [vm_compute; reflexivity|]).
  eexists. split; vm_compute; reflexivity.
Qed.

Lemma revoke_loop_spec (ids : list Z) cs rv k :
  let r := revoke_loop ids cs rv k in
  (forall i, i ∈ ids -> is_Some (cs !! i) -> i ∈ r.1.2) /\
  (forall i, i ∉ ids -> r.1.1 !! i = cs !! i /\ (i ∈ r.1.2 <-> i ∈ rv)) /\
  rv ⊆ r.1.2.
Proof.
  revert cs rv k. induction ids as [|i rest IH]; intros cs rv k; simpl.
  - split; [set_solver|]. split; [done|]. done.
  - destruct (cs !! i) as [c|] eqn:Hi.
    + destruct (IH (<[i := set_revoked c]> cs) ({[i]} ∪ rv) (S k)) as (H1 & H2 & H3).
      split; [|split].
      * intros j Hj Hs. destruct (decide (j = i)) as [->|Hne]; [set_solver|].
        apply H1; [set_solver|]. by rewrite lookup_insert_ne.
      * intros j Hj. destruct (H2 j) as [Hl Hr]; [set_solver|].
        rewrite Hl, lookup_insert_ne by set_solver. split; [done|]. rewrite Hr. set_solver.
      * set_solver.
    + destruct (IH cs rv k) as (H1 & H2 & H3). split; [|split].
      * intros j Hj Hs. destruct (decide (j = i)) as [->|Hne].
        -- rewrite Hi in Hs. by destruct Hs.
        -- apply H1; [set_solver|done].
      * intros j Hj. apply H2. set_solver.
      * done.
Qed.

Lemma elem_of_children (cs : gmap Z Capability) cid i :
  i ∈ map fst (filter (fun p => parent_id p.2 = Some cid) (map_to_list cs)) <->
  exists c, cs !! i = Some c /\ parent_id c = Some cid.
Proof.
  rewrite list_elem_of_fmap. split.
  - intros ([j c] & -> & Hf). apply list_elem_of_filter in Hf as [Hp Hm].
    apply elem_of_map_to_list in Hm. eauto.
  - intros (c & Hc & Hp). exists (i, c). split; [done|].
    apply list_elem_of_filter. split; [done|]. by apply elem_of_map_to_list.
Qed.

(** C2, amended: [revoke] is a one-level sweep. Afterwards every token
    whose id is the (existing) target or a direct child of it fails
    [validate] with [Revoked]; every other capability, grandchildren of
    the target included, keeps its entry and its revocation status, so
    [validate] answers for it as before. *)
Theorem revoke_one_level (m : CapabilityManager) (token : string) (cid : Z)
    (n : nat) (m' : CapabilityManager) :
  capability_id token = Some cid -> revoke m token = (Ok n, m') ->
  (forall t' i now R, capability_id t' = Some i ->
     ((i = cid /\ is_Some (capabilities m !! cid)) \/
      exists c, capabilities m !! i = Some c /\ parent_id c = Some cid) ->
     validate m' now t' R = Err Revoked) /\
  (forall t' i now R, capability_id t' = Some i -> i <> cid ->
     (forall c, capabilities m !! i = Some c -> parent_id c <> Some cid) ->
     validate m' now t' R = validate m now t' R).
Proof.
  unfold revoke. intros Hid. rewrite Hid.
  set (children := map fst (filter (fun p => parent_id p.2 = Some cid)
                                   (map_to_list (capabilities m)))).
  pose proof (revoke_loop_spec (cid :: children) (capabilities m) (revocations m) 0)
    as (H1 & H2 & _).
  destruct (revoke_loop (cid :: children) (capabilities m) (revocations m) 0)
    as [[cs rv] k] eqn:Hl. simpl in H1, H2.
  intros [= _ <-]. split.
  - intros t' i now R Hi Hc. unfold validate. rewrite Hi. simpl.
    rewrite bool_decide_eq_true_2; [done|]. apply H1.
    + destruct Hc as [[-> _] | Hc]; [set_solver|].
      apply elem_of_cons. right. by apply elem_of_children.
    + destruct Hc as [[-> Hs] | (c & Hc & _)]; [done|]. by rewrite Hc.
  - intros t' i now R Hi Hne Hp.
    assert (Hn : i ∉ cid :: children).
    { intros Hin. apply elem_of_cons in Hin as [->|Hin]; [done|].
      apply elem_of_children in Hin as (c & Hc & Hpc). by apply (Hp c). }
    destruct (H2 i Hn) as [Hcs Hrv].
    unfold validate. rewrite Hi. simpl.
    rewrite (bool_decide_ext _ _ Hrv), Hcs. done.
Qed.

Lemma revoke_one_level_witness :
  capability_id (token_new 1 secret0) = Some 1 /\
  revoke s_b (token_new 1 secret0) = (Ok 2%nat, (revoke s_b (token_new 1 secret0)).2) /\
  validate (revoke s_b (token_new 1 secret0)).2 0 (token_new 2 secret0) [Read] = Err Revoked.
Proof.
  assert (Hid : capability_id (token_new 1 secret0) = Some 1) by (vm_compute; reflexivity).
  assert (Hr : revoke s_b (token_new 1 secret0) = (Ok 2%nat, (revoke s_b (token_new 1 secret0)).2)).
  { vm_compute. reflexivity. }
  split; [exact Hid|]. split; [exact Hr|].
  destruct (revoke_one_level s_b (token_new 1 secret0) 1 2 _ Hid Hr) as [H _].
  apply (H _ 2); [vm_compute; reflexivity|].
  right. eexists. split; [vm_compute; reflexivity|reflexivity].
Defined.

(** Capabilities minted by [create_capability] with a fixed clock reading
    of 0, no rights and default validity, [k] times in a row. *)
Definition create_blank (m : CapabilityManager) : CapabilityManager :=
  (create_capability m 0 0 Module "" [] "" validity_default).2.

Definition create_n (k : nat) (m : CapabilityManager) : CapabilityManager :=
  Nat.iter k create_blank m.

Lemma create_n_reachable sec k m : reachable sec m -> reachable sec (create_n k m).
Proof.
  intros Hm. induction k as [|k IH]; [done|]. simpl.
  eapply reachable_step; [exact IH|]. apply step_create.
Qed.

Lemma create_blank_next_id m :
  next_id (create_blank m) = (next_id m + 1) mod u64_mod.
Proof. reflexivity. Qed.

Lemma create_blank_lookup m i :
  capabilities (create_blank m) !! i =
  (<[CapabilityId_new (next_id m) 0 :=
     {| id := CapabilityId_new (next_id m) 0; resource_type := Module; resource_id := "";
        rights := []; owner := ""; parent_id := None; validity := validity_default;
        revoked := false; created_at := 0 |}]> (capabilities m)) !! i.
Proof. reflexivity. Qed.

Lemma create_n_next_id k m :
  0 <= next_id m -> next_id m + Z.of_nat k < u64_mod ->
  next_id (create_n k m) = next_id m + Z.of_nat k.
Proof.
  intros H0 Hb. induction k as [|k IH]; [simpl; lia|].
  change (create_n (S k) m) with (create_blank (create_n k m)).
  rewrite create_blank_next_id, IH by lia. unfold u64_mod in *.
  rewrite Z.mod_small; lia.
Qed.

Lemma CapabilityId_new_at0 c : CapabilityId_new c 0 = c mod 2 ^ 32.
Proof.
  unfold CapabilityId_new. change 0xFFFFFFFF with (Z.ones 32).
  rewrite !Z.land_ones by lia. rewrite Z.shiftl_0_l, Zmod_0_l, Z.lor_0_l. reflexivity.
Qed.

Lemma create_n_keeps k m i :
  0 <= next_id m -> next_id m + Z.of_nat k < u64_mod ->
  (forall j, (j < k)%nat -> CapabilityId_new (next_id m + Z.of_nat j) 0 <> i) ->
  capabilities (create_n k m) !! i = capabilities m !! i.
Proof.
  intros H0 Hb Hj. induction k as [|k IH]; [done|].
  change (create_n (S k) m) with (create_blank (create_n k m)).
  rewrite create_blank_lookup, lookup_insert_ne.
  - apply IH; [lia|]. intros j Hjk. apply Hj. lia.
  - rewrite create_n_next_id by lia. apply Hj. lia.
Qed.

(** The chain parent (id 1) -> D (id 2), then [2 ^ 32 - 2] blank
    capabilities: the counter reaches [2 ^ 32 + 1], whose low 32 bits are
    those of the parent's id. *)
Definition s_d : CapabilityManager :=
  (delegate s_full 0 0 0 (token_new 1 secret0) "D" [Read] validity_default).2.

Definition s_wrapped : CapabilityManager := create_n (Z.to_nat (2 ^ 32 - 2)) s_d.

Lemma s_d_reachable : reachable secret0 s_d.
Proof.
  eapply reachable_step; [|apply step_delegate].
  eapply reachable_step; [apply reachable_new|apply step_create].
Qed.

Lemma s_wrapped_next_id : next_id s_wrapped = 2 ^ 32 + 1.
Proof.
  unfold s_wrapped. rewrite create_n_next_id; [| | unfold u64_mod];
    change (next_id s_d) with 3; rewrite ?Z2Nat.id; lia.
Qed.

Lemma s_wrapped_child :
  capabilities s_wrapped !! 2 = capabilities s_d !! 2.
Proof.
  unfold s_wrapped. apply create_n_keeps; change (next_id s_d) with 3;
    [lia | unfold u64_mod; rewrite Z2Nat.id; lia |].
  intros j Hj. apply Nat2Z.inj_lt in Hj. rewrite Z2Nat.id in Hj by lia.
  rewrite CapabilityId_new_at0.
  destruct (decide (3 + Z.of_nat j = 2 ^ 32)) as [->|Hne].
  - rewrite Z_mod_same_full. lia.
  - rewrite Z.mod_small; lia.
Qed.

Lemma create_blank_s_wrapped_reachable : reachable secret0 (create_blank s_wrapped).
Proof.
  exact (create_n_reachable secret0 1 s_wrapped (create_n_reachable secret0 _ s_d s_d_reachable)).
Qed.

Lemma create_blank_s_wrapped_child :
  capabilities (create_blank s_wrapped) !! 2 = capabilities s_d !! 2.
Proof.
  rewrite create_blank_lookup, s_wrapped_next_id.
  rewrite lookup_insert_ne by (vm_compute; discriminate).
  apply s_wrapped_child.
Qed.

(** C6 fails in the code: [delegate] does check the requested rights
    against the parent's, but ids are not unique. [CapabilityId::new] keeps
    only the low 32 bits of the counter, so after [2 ^ 32] ids have been
    minted the next [create_capability] gets id 1 again and replaces the
    parent of D with a capability without rights, while D (rights [Read],
    parent 1) stays in the table: a reachable state where a delegated
    capability has rights its parent lacks. *)
Lemma attenuation_broken_by_id_reuse :
  exists m, reachable secret0 m /\
    capabilities m !! 2 = Some
      {| id := 2; resource_type := Module; resource_id := "test-module"; rights := [Read];
         owner := "D"; parent_id := Some 1; validity := validity_default; revoked := false;
         created_at := 0 |} /\
    ~ attenuated m.
Proof.
  exists (create_blank s_wrapped).
  assert (Hsd : capabilities s_d !! 2 = Some
    {| id := 2; resource_type := Module; resource_id := "test-module"; rights := [Read];
       owner := "D"; parent_id := Some 1; validity := validity_default; revoked := false;
       created_at := 0 |}) by (vm_compute; reflexivity).
  pose proof create_blank_s_wrapped_child as Hd. rewrite Hsd in Hd.
  split; [exact create_blank_s_wrapped_reachable|split; [exact Hd|]].
  intros Hatt.
  destruct (Hatt 2 _ 1 Hd eq_refl) as (pc & Hpc & Hsub).
  rewrite create_blank_lookup, s_wrapped_next_id, lookup_insert_eq in Hpc.
  injection Hpc as <-.
  clear - Hsub. specialize (Hsub Read). simpl in Hsub. set_solver.
Qed.

(** Below [2 ^ 32] mints: keys are ids, their low 32 bits are counters
    already used, and attenuation holds. *)
Definition low32 (i : Z) : Z := Z.land i (Z.ones 32).

Definition Inv (m : CapabilityManager) : Prop :=
  1 <= next_id m <= 2 ^ 32 /\
  (forall i c, capabilities m !! i = Some c -> id c = i /\ 1 <= low32 i < next_id m) /\
  attenuated m.

Lemma low32_id c ts : low32 (CapabilityId_new c ts) = low32 c.
Proof.
  unfold low32, CapabilityId_new. change 0xFFFFFFFF with (Z.ones 32).
  apply Z.bits_inj'. intros n Hn.
  rewrite !Z.land_spec, Z.lor_spec, !Z.land_spec.
  destruct (Z.lt_ge_cases n 32).
  - rewrite (Z.shiftl_spec_low _ _ n), (Z.ones_spec_low 32 n) by lia.
    destruct (Z.testbit c n); reflexivity.
  - rewrite (Z.ones_spec_high 32 n) by lia. rewrite !andb_false_r. reflexivity.
Qed.

Lemma low32_small c : 0 <= c < 2 ^ 32 -> low32 c = c.
Proof. intros H. unfold low32. rewrite Z.land_ones by lia. apply Z.mod_small; lia. Qed.

Lemma validate_ok_lookup m now tok R c :
  validate m now tok R = Ok c -> exists cid, capabilities m !! cid = Some c.
Proof.
  unfold validate. destruct (capability_id tok) as [cid|]; [|discriminate].
  case_bool_decide; [discriminate|].
  destruct (capabilities m !! cid) as [c'|] eqn:Hc; [|discriminate].
  destruct (is_valid c' now); [|discriminate].
  destruct (missing_rights c' R); [|discriminate]. intros [= <-]. eauto.
Qed.

Definition view (c : Capability) : Z * list CapabilityRight * option Z :=
  (id c, rights c, parent_id c).

Lemma Inv_view m m' :
  (forall i, view <$> capabilities m' !! i = view <$> capabilities m !! i) ->
  next_id m' = next_id m -> Inv m -> Inv m'.
Proof.
  intros Hv Hn (Hb & Hk & Ha). unfold Inv. rewrite Hn. split; [done|split].
  - intros i c Hc. specialize (Hv i). rewrite Hc in Hv.
    destruct (capabilities m !! i) as [c0|] eqn:Hc0; [|discriminate].
    injection Hv as Hid _ _. rewrite Hid. by apply Hk.
  - intros i d p Hd Hp. pose proof (Hv i) as Hvi. rewrite Hd in Hvi.
    destruct (capabilities m !! i) as [d0|] eqn:Hd0; [|discriminate].
    injection Hvi as _ Hr Hpp.
    destruct (Ha i d0 p Hd0 ltac:(congruence)) as (pc0 & Hpc0 & Hsub).
    pose proof (Hv p) as Hvp. rewrite Hpc0 in Hvp.
    destruct (capabilities m' !! p) as [pc|] eqn:Hpc; [|discriminate].
    injection Hvp as _ Hr' _. exists pc. split; [done|].
    intros r. rewrite Hr, Hr'. apply Hsub.
Qed.

Lemma revoke_loop_view ids cs rv n i :
  view <$> (revoke_loop ids cs rv n).1.1 !! i = view <$> cs !! i.
Proof.
  revert cs rv n. induction ids as [|j ids IH]; intros cs rv n; [done|]. simpl.
  destruct (cs !! j) as [c|] eqn:Hc; rewrite IH; [|done].
  destruct (decide (j = i)) as [->|Hne].
  - rewrite lookup_insert_eq, Hc. reflexivity.
  - rewrite lookup_insert_ne by done. reflexivity.
Qed.

Lemma Inv_install m cid c tok :
  Inv m -> next_id m < 2 ^ 32 -> low32 cid = next_id m -> id c = cid ->
  (forall p, parent_id c = Some p ->
     exists pc, capabilities m !! p = Some pc /\ (forall r, r ∈ rights c -> r ∈ rights pc)) ->
  Inv (install (bump m) cid c tok).
Proof.
  intros (Hb & Hk & Ha) Hlt Hlow Hid Hpar.
  assert (Hfresh : forall i c0, capabilities m !! i = Some c0 -> i <> cid).
  { intros i c0 Hi ->. destruct (Hk _ _ Hi). lia. }
  unfold Inv, install, bump. simpl. unfold u64_mod. rewrite Z.mod_small by lia.
  split; [lia|split].
  - intros i c0. destruct (decide (cid = i)) as [<-|Hne].
    + rewrite lookup_insert_eq. intros [= <-]. lia.
    + rewrite lookup_insert_ne by done. intros Hi. destruct (Hk _ _ Hi). lia.
  - unfold attenuated. simpl. intros i d p. destruct (decide (cid = i)) as [<-|Hne].
    + rewrite lookup_insert_eq. intros [= <-] Hp.
      destruct (Hpar p Hp) as (pc & Hpc & Hsub). exists pc.
      rewrite lookup_insert_ne by (intros ->; by apply (Hfresh _ _ Hpc)). done.
    + rewrite lookup_insert_ne by done. intros Hd Hp.
      destruct (Ha i d p Hd Hp) as (pc & Hpc & Hsub). exists pc.
      rewrite lookup_insert_ne by (intros ->; by apply (Hfresh _ _ Hpc)). done.
Qed.

Lemma Inv_next_lt m :
  Inv m -> (next_id m + 1) mod u64_mod <= 2 ^ 32 -> next_id m < 2 ^ 32.
Proof.
  intros (Hb & _) Hle. unfold u64_mod in Hle. rewrite Z.mod_small in Hle by lia. lia.
Qed.

Lemma Inv_step m m' : Inv m -> step m m' -> next_id m' <= 2 ^ 32 -> Inv m'.
Proof.
  intros HI Hs Hle. destruct Hs as [m ts1 ts2 rt rid rs own v|m now ts1 ts2 tok own rs v|m tok|m tok].
  - simpl in *. assert (Hlt : next_id m < 2 ^ 32) by (apply Inv_next_lt; [exact HI|exact Hle]).
    pose proof HI as (Hb & _).
    apply Inv_install; [done|done| |done|discriminate].
    rewrite low32_id. apply low32_small. lia.
  - unfold delegate in *.
    destruct (validate m now tok [Delegate]) as [parent|e] eqn:Hv; [|done].
    destruct (missing_rights parent rs) as [|r0 rest] eqn:Hm; [|done].
    simpl in *. assert (Hlt : next_id m < 2 ^ 32) by (apply Inv_next_lt; [exact HI|exact Hle]).
    pose proof HI as (Hb & Hk & _).
    apply Inv_install; [done|done| |done|].
    + rewrite low32_id. apply low32_small. lia.
    + simpl. intros p [= <-]. destruct (validate_ok_lookup _ _ _ _ _ Hv) as (pcid & Hp).
      exists parent. destruct (Hk _ _ Hp) as [-> _]. split; [done|].
      by apply missing_rights_nil.
  - unfold record_usage in *.
    destruct (capability_id tok) as [cid|]; [|done].
    destruct (capabilities m !! cid) as [c|] eqn:Hc; [|done].
    simpl in *. apply (Inv_view m); [|done|done].
    intros i. simpl. destruct (decide (cid = i)) as [<-|Hne].
    + rewrite lookup_insert_eq, Hc. reflexivity.
    + rewrite lookup_insert_ne by done. reflexivity.
  - unfold revoke in *.
    destruct (capability_id tok) as [cid|]; [|done].
    destruct (revoke_loop _ (capabilities m) (revocations m) 0) as [[cs rv] count] eqn:Hr.
    simpl. apply (Inv_view m); [|done|done].
    intros i. simpl. erewrite <- (revoke_loop_view _ (capabilities m)). rewrite Hr. reflexivity.
Qed.

Lemma Inv_reachable_below sec m : reachable_below sec m -> Inv m.
Proof.
  induction 1 as [|m m' _ IH Hs Hle].
  - unfold Inv, attenuated. simpl. split; [lia|split].
    + intros i c Hc. by rewrite lookup_empty in Hc.
    + intros i d p Hd. by rewrite lookup_empty in Hd.
  - eapply Inv_step; eauto.
Qed.

Lemma s_b_reachable_below : reachable_below secret0 s_b.
Proof.
  eapply below_step; [|apply step_delegate|vm_compute; discriminate].
  eapply below_step; [|apply step_delegate|vm_compute; discriminate].
  eapply below_step; [apply below_new|apply step_create|vm_compute; discriminate].
Qed.

End CapabilityProofs.

Module AuditProofs.
Import Audit.

#[local] Opaque compute_hash genesis_hash.

Definition kernel_started : AuditEvent :=
  {| event_type := KernelStarted "1.0"; event_source := "kernel" |}.

Definition trimmed_log : AuditLog :=
  append_all (log_new 2) [(0, kernel_started); (0, kernel_started); (0, kernel_started)].

(** C3 fails: a log with [max_entries = 2] after three untampered appends
    holds sequences 2 and 3, and [verify_chain] reports it invalid at
    sequence 2, because the walk starts from the genesis hash while entry 2
    links to the dropped entry 1. *)
Lemma trimmed_chain_invalid :
  map sequence (entries trimmed_log) = [2; 3] /\
  verify_chain trimmed_log =
    {| valid := false; entries_checked := 2; first_invalid := Some 2 |}.
Proof. split; vm_compute; reflexivity. Qed.

Lemma new_entry_verifies log ts ev : entry_verify (append log ts ev).1 = true.
Proof. unfold entry_verify. simpl. apply String.eqb_refl. Qed.

Definition final_hash (p : string) (es : list AuditEntry) : string :=
  match last es with Some e => hash e | None => p end.

Lemma final_hash_cons p e es : final_hash p (e :: es) = final_hash (hash e) es.
Proof.
  revert p e. induction es as [|a es IH]; intros p e; [reflexivity|].
  change (final_hash p (e :: a :: es)) with (final_hash p (a :: es)).
  rewrite !IH. reflexivity.
Qed.

Lemma verify_from_snoc p es x :
  verify_from p es = None -> entry_verify x = true -> prev_hash x = final_hash p es ->
  verify_from p (es ++ [x]) = None.
Proof.
  revert p. induction es as [|e es IH]; intros p Hes Hx Hp; simpl in *.
  - rewrite Hx, Hp, String.eqb_refl. reflexivity.
  - destruct (entry_verify e); [|discriminate]. simpl in *.
    destruct (String.eqb (prev_hash e) p); [|discriminate]. simpl in *.
    apply IH; [done|done|]. rewrite Hp. apply final_hash_cons.
Qed.

Lemma verify_from_head p e rest :
  verify_from p (e :: rest) = None -> prev_hash e = p /\ verify_from (hash e) rest = None.
Proof.
  simpl. destruct (entry_verify e); [|discriminate]. simpl.
  destruct (String.eqb (prev_hash e) p) eqn:He; [|discriminate]. simpl.
  apply String.eqb_eq in He. done.
Qed.

(** What every untampered log satisfies: each entry verifies, each links to
    the one before it, and the newest one's hash is [last_hash]. *)
Definition chain_wf (log : AuditLog) : Prop :=
  match entries log with
  | [] => last_hash log = genesis_hash
  | e :: _ => verify_from (prev_hash e) (entries log) = None /\
              final_hash (prev_hash e) (entries log) = last_hash log
  end.

Lemma final_hash_snoc p es x : final_hash p (es ++ [x]) = hash x.
Proof. unfold final_hash. rewrite last_app. reflexivity. Qed.

Lemma chain_wf_append log ts ev : chain_wf log -> chain_wf (append log ts ev).2.
Proof.
  pose proof (new_entry_verifies log ts ev) as Hnew.
  unfold append in *. cbn [fst snd] in *.
  unfold chain_wf. cbn [entries last_hash].
  destruct (max_entries log <=? List.length (entries log))%nat.
  - destruct (entries log) as [|e rest] eqn:Hes; cbn [tail app].
    + intros Hl. cbn [prev_hash verify_from]. rewrite Hnew, Hl, String.eqb_refl.
      split; reflexivity.
    + intros [Hv Hf]. destruct rest as [|e' rest'].
      * cbn [prev_hash verify_from app]. rewrite Hnew, String.eqb_refl. split; reflexivity.
      * apply verify_from_head in Hv as [_ Hv].
        pose proof Hv as Hv'. apply verify_from_head in Hv' as [Hp _].
        cbn [app]. rewrite final_hash_cons, final_hash_snoc. split; [|reflexivity].
        rewrite app_comm_cons. apply verify_from_snoc; [rewrite Hp; exact Hv|exact Hnew|].
        cbn [prev_hash]. rewrite <- Hf, final_hash_cons, Hp. reflexivity.
  - destruct (entries log) as [|e rest] eqn:Hes; cbn [app].
    + intros Hl. cbn [prev_hash verify_from]. rewrite Hnew, Hl, String.eqb_refl.
      split; reflexivity.
    + intros [Hv Hf]. rewrite final_hash_cons, final_hash_snoc. split; [|reflexivity].
      rewrite app_comm_cons. apply verify_from_snoc; [exact Hv|exact Hnew|].
      cbn [prev_hash]. symmetry. exact Hf.
Qed.



Lemma chain_wf_append_all log evs : chain_wf log -> chain_wf (append_all log evs).
Proof.
  revert log. induction evs as [|[ts ev] evs IH]; intros log H; [exact H|].
  apply IH, chain_wf_append, H.
Qed.

Lemma chain_wf_new max : chain_wf (log_new max).
Proof. reflexivity. Qed.

Lemma verify_chain_wf log e rest :
  chain_wf log -> entries log = e :: rest ->
  (prev_hash e = genesis_hash ->
     verify_chain log = {| valid := true; entries_checked := Z.of_nat (List.length (e :: rest));
                           first_invalid := None |}) /\
  (prev_hash e <> genesis_hash ->
     verify_chain log = {| valid := false; entries_checked := sequence e;
                           first_invalid := Some (sequence e) |}).
Proof.
  unfold chain_wf, verify_chain. intros Hwf Hes. rewrite Hes in *. destruct Hwf as [Hv _].
  split.
  - intros Hg. rewrite <- Hg, Hv. reflexivity.
  - intros Hg. pose proof Hv as Hv'. apply verify_from_head in Hv' as [_ Hrest].
    cbn [verify_from] in Hv |- *.
    destruct (entry_verify e); [|discriminate]. cbn [negb].
    destruct (String.eqb (prev_hash e) genesis_hash) eqn:He.
    + apply String.eqb_eq in He. contradiction.
    + reflexivity.
Qed.

Lemma append_all_prefix evs log :
  (List.length (entries log) + List.length evs <= max_entries log)%nat ->
  exists tl, entries (append_all log evs) = entries log ++ tl.
Proof.
  revert log. induction evs as [|[ts ev] evs IH]; intros log Hle.
  - exists []. rewrite app_nil_r. reflexivity.
  - cbn [append_all]. destruct (IH (append log ts ev).2) as [tl Htl].
    + unfold append. cbn [entries max_entries snd List.length] in *.
      destruct (max_entries log <=? List.length (entries log))%nat eqn:Hm.
      * apply Nat.leb_le in Hm. lia.
      * rewrite length_app. cbn [List.length]. lia.
    + rewrite Htl. unfold append. cbn [entries snd] in *.
      destruct (max_entries log <=? List.length (entries log))%nat eqn:Hm.
      * apply Nat.leb_le in Hm. cbn [List.length] in Hle. lia.
      * eexists. rewrite <- app_assoc. reflexivity.
Qed.

(** C3 (amended). For a log built by appends alone from [AuditLog::new],
    [verify_chain] anchors the walk at the genesis hash: with no more
    appends than [max_entries] it reports valid; in general it reports
    valid (all entries checked) when the oldest retained entry's
    [prev_hash] is the genesis hash, and invalid at that entry's sequence
    otherwise, which is the case after a trim unless SHA-256 collides. *)
Theorem verify_chain_anchored_at_genesis (max : nat) (evs : list (Z * AuditEvent)) :
  ((List.length evs <= max)%nat -> valid (verify_chain (append_all (log_new max) evs)) = true) /\
  (forall e rest, entries (append_all (log_new max) evs) = e :: rest ->
    (prev_hash e = genesis_hash ->
       verify_chain (append_all (log_new max) evs) =
         {| valid := true; entries_checked := Z.of_nat (List.length (e :: rest));
            first_invalid := None |}) /\
    (prev_hash e <> genesis_hash ->
       verify_chain (append_all (log_new max) evs) =
         {| valid := false; entries_checked := sequence e;
            first_invalid := Some (sequence e) |})).
Proof.
  assert (Hwf : chain_wf (append_all (log_new max) evs))
    by (apply chain_wf_append_all, chain_wf_new).
  split.
  - intros Hle. destruct evs as [|[ts ev] evs]; [reflexivity|].
    cbn [append_all]. cbn [append_all] in Hwf.
    destruct (append_all_prefix evs (append (log_new max) ts ev).2) as [tl Htl].
    { unfold append. cbn [entries max_entries snd log_new List.length] in *.
      destruct max; cbn; [lia|]. cbn [List.length] in Hle. lia. }
    assert (Hfirst : exists e, entries (append (log_new max) ts ev).2 = [e] /\
                               prev_hash e = genesis_hash).
    { unfold append. cbn [entries snd log_new last_hash].
      destruct (_ <=? _)%nat; eexists; split; reflexivity. }
    destruct Hfirst as (e & He & Hg). rewrite He in Htl. cbn [app] in Htl.
    destruct (verify_chain_wf _ e tl Hwf Htl) as [Hok _].
    rewrite (Hok Hg). reflexivity.
  - intros e rest Hes. exact (verify_chain_wf _ e rest Hwf Hes).
Qed.

Lemma verify_chain_anchored_at_genesis_witness :
  valid (verify_chain (append_all (log_new 2) [(0, kernel_started); (0, kernel_started)])) = true /\
  verify_chain trimmed_log =
    {| valid := false; entries_checked := 2; first_invalid := Some 2 |}.
Proof.
  split.
  - apply (proj1 (verify_chain_anchored_at_genesis 2 [(0, kernel_started); (0, kernel_started)])).
    cbn. lia.
  - destruct (entries trimmed_log) as [|e rest] eqn:Hes; [vm_compute in Hes; discriminate|].
    unfold trimmed_log in *.
    rewrite (proj2 (proj2 (verify_chain_anchored_at_genesis 2 _) e rest Hes));
      vm_compute in Hes; injection Hes as <- _; [reflexivity|].
    vm_compute. discriminate.
Defined.

(** The sequence numbers a log holds, its counter and its bound evolve
    independently of the events appended. *)
Definition seq_view (log : AuditLog) : list Z * Z * nat :=
  (map sequence (entries log), seq_counter log, max_entries log).

Definition seq_next (st : list Z * Z * nat) : list Z * Z * nat :=
  let '(ss, c, mx) := st in
  let c' := (c + 1) mod 2 ^ 64 in
  ((if (mx <=? List.length ss)%nat then tail ss else ss) ++ [c'], c', mx).

Lemma seq_view_append log ts ev : seq_view (append log ts ev).2 = seq_next (seq_view log).
Proof.
  unfold seq_view, append, seq_next. cbn [entries seq_counter max_entries snd].
  rewrite length_map, map_app.
  destruct (max_entries log <=? List.length (entries log))%nat; [|reflexivity].
  destruct (entries log); reflexivity.
Qed.

Lemma seq_view_append_all log evs :
  seq_view (append_all log evs) = Nat.iter (List.length evs) seq_next (seq_view log).
Proof.
  revert log. induction evs as [|[ts ev] evs IH]; intros log; [reflexivity|].
  cbn [append_all List.length]. rewrite IH, seq_view_append, Nat.iter_succ_r. reflexivity.
Qed.

Lemma seq_counter_iter n st :
  (Z.of_nat n < 2 ^ 64) -> st.1.2 = 0 -> (Nat.iter n seq_next st).1.2 = Z.of_nat n.
Proof.
  intros Hn H0. induction n as [|n IH]; [exact H0|].
  rewrite Nat.iter_succ. destruct (Nat.iter n seq_next st) as [[ss c] mx] eqn:Hi.
  cbn in IH |- *. rewrite IH by lia. rewrite Z.mod_small by lia. lia.
Qed.

(** C8. [append] gives the new entry the sequence [counter + 1] (on [u64])
    whether or not it drops the oldest entry, keeps that number as the
    counter and stores the entry last; from [AuditLog::new], the counter
    is the number of appends; with [max_entries = 5], ten appends of any
    events leave exactly the entries with sequences 6 to 10, and the next
    append gets sequence 11. *)
Theorem audit_ring_keeps_recent (evs : list (Z * AuditEvent)) (Hlen : List.length evs = 10%nat) :
  (forall log ts ev,
     sequence (append log ts ev).1 = (seq_counter log + 1) mod 2 ^ 64 /\
     seq_counter (append log ts ev).2 = (seq_counter log + 1) mod 2 ^ 64 /\
     last (get_all_entries (append log ts ev).2) = Some (append log ts ev).1) /\
  (forall max evs', Z.of_nat (List.length evs') < 2 ^ 64 ->
     seq_counter (append_all (log_new max) evs') = Z.of_nat (List.length evs')) /\
  map sequence (get_all_entries (append_all (log_new 5) evs)) = [6; 7; 8; 9; 10] /\
  (forall ts ev, sequence (append (append_all (log_new 5) evs) ts ev).1 = 11).
Proof.
  assert (Hv : seq_view (append_all (log_new 5) evs) = ([6; 7; 8; 9; 10], 10, 5%nat)).
  { rewrite seq_view_append_all, Hlen. vm_compute. reflexivity. }
  unfold seq_view in Hv. injection Hv as Hs Hc.
  split; [|split; [|split]].
  - intros log ts ev. unfold get_all_entries, append. cbn [fst snd entries seq_counter sequence].
    split; [reflexivity|split; [reflexivity|]]. apply last_snoc.
  - intros max evs' Hn. pose proof (seq_view_append_all (log_new max) evs') as Hview.
    unfold seq_view in Hview. apply (f_equal (fun st => st.1.2)) in Hview. cbn in Hview.
    rewrite Hview. apply seq_counter_iter; [exact Hn|reflexivity].
  - exact Hs.
  - intros ts ev. unfold append. cbn [fst sequence]. rewrite Hc. reflexivity.
Qed.

Definition ten_events : list (Z * AuditEvent) :=
  map (fun n => (Z.of_nat n, {| event_type := ModuleStarted "m"; event_source := "kernel" |}))
      (seq 0 10).

Lemma audit_ring_keeps_recent_witness :
  map sequence (get_all_entries (append_all (log_new 5) ten_events)) = [6; 7; 8; 9; 10].
Proof. exact (proj1 (proj2 (proj2 (audit_ring_keeps_recent ten_events eq_refl)))). Defined.

End AuditProofs.

Module SupervisorProofs.
Import Supervisor.

Definition backoff_spec : ChildSpec :=
  {| child_id := "backoff-module"; manifest_path := "/path/to/manifest.json";
     restart := Permanent; max_restarts := 10; restart_intensity_window := 60;
     base_restart_delay_ms := 100; max_restart_delay_ms := 10000; backoff_factor := f64_of_Z 2 0 |}.

Definition sup_running : SupervisorState :=
  (report_started (register_child {| children := ∅ |} backoff_spec).2 "backoff-module").2.

Definition crash (sup : SupervisorState) (now : Z) : Result SupervisorAction string * SupervisorState :=
  report_crash sup "backoff-module" "error" now.

(** Every [Restart] that [report_crash] returns carries the delay
    [calculate_restart_delay] computes for the attempt number [n] it stores
    in the child's [Restarting] state, which counts this restart. *)
Lemma restart_delay_is_attempt sup cid err now d p l :
  (report_crash sup cid err now).1 = Ok (Restart d p l) ->
  exists c rc, children (report_crash sup cid err now).2 !! cid = Some c /\
    state c = Restarting rc /\ restart_count c = rc /\
    d = calculate_restart_delay c.
Proof.
  unfold report_crash. destruct (children sup !! cid) as [c0|]; [|discriminate].
  cbv zeta. cbn [spec child_with].
  destruct (restart (spec c0)); cbn [fst snd];
    [| discriminate | destruct (String.eqb err "normal" || String.eqb err "shutdown");
                      [discriminate|] ];
    (destruct (restart_limit_exceeded _ now); [destruct (4 <=? _); [discriminate|]|]);
    cbn [fst snd children]; intros [= <- _ _]; cbn [fst snd children andb];
    (eexists _, _; rewrite lookup_insert_eq; split; [reflexivity|];
     split; [reflexivity|]; split; reflexivity).
Qed.


(** C4 fails in the code: with base 100 ms, factor 2.0, max 10000 ms and
    [max_restarts = 10], three crashes of a running child one second apart
    return delays 200, 400 and 800 ms, not 100, 200 and 400 ms:
    [report_crash] increments [restart_count] before
    [calculate_restart_delay] reads it, so the first restart is attempt 1
    and already gets [base * factor ^ 1]. *)
Theorem backoff_first_delay_doubled :
  (crash sup_running 0).1 = Ok (Restart 200 "/path/to/manifest.json" Level1RestartWithState) /\
  (crash (crash sup_running 0).2 1000000000).1 =
    Ok (Restart 400 "/path/to/manifest.json" Level1RestartWithState) /\
  (crash (crash (crash sup_running 0).2 1000000000).2 2000000000).1 =
    Ok (Restart 800 "/path/to/manifest.json" Level1RestartWithState) /\
  state <$> children (crash sup_running 0).2 !! "backoff-module" = Some (Restarting 1).
Proof. vm_compute. repeat split. Qed.

Lemma window_not_expired_at_start c now :
  0 <= restart_intensity_window (spec c) -> window_expired c now now = false.
Proof. intros H. unfold window_expired. apply Z.ltb_ge. rewrite Z.sub_diag. lia. Qed.

(** C9. For a registered child: with the [Temporary] strategy every crash
    returns [Stop]; with [Transient] and reason [normal] or [shutdown] the
    result is [Stop] and the child is left [Terminated]; with [Transient]
    and any other reason, while the restart count is below [max_restarts]
    (and the intensity window is not negative), the result is a
    [Restart] action. *)
Theorem transient_and_temporary_actions sup cid err now c :
  children sup !! cid = Some c ->
  (restart (spec c) = Temporary -> (report_crash sup cid err now).1 = Ok Stop) /\
  (restart (spec c) = Transient -> (err = "normal" \/ err = "shutdown") ->
     (report_crash sup cid err now).1 = Ok Stop /\
     state <$> children (report_crash sup cid err now).2 !! cid = Some Terminated) /\
  (restart (spec c) = Transient -> err <> "normal" -> err <> "shutdown" ->
     0 <= restart_count c < max_restarts (spec c) ->
     0 <= restart_intensity_window (spec c) ->
     exists d path lvl, (report_crash sup cid err now).1 = Ok (Restart d path lvl)).
Proof.
  intros Hc. unfold report_crash. rewrite Hc. cbv zeta. cbn [spec child_with].
  split; [|split].
  - intros Ht. rewrite Ht. reflexivity.
  - intros Ht Herr. rewrite Ht. cbn [fst snd].
    assert (Hb : (String.eqb err "normal" || String.eqb err "shutdown")%bool = true).
    { destruct Herr as [-> | ->]; reflexivity. }
    rewrite Hb. cbn [fst snd children]. rewrite lookup_insert_eq. split; reflexivity.
  - intros Ht Hn Hs Hrc Hw. rewrite Ht. cbn [fst snd].
    apply String.eqb_neq in Hn, Hs. rewrite Hn, Hs. cbn [orb].
    destruct (restart_limit_exceeded _ now) eqn:Hlim;
      [exfalso; revert Hlim | cbn [andb fst]; eexists _, _, _; reflexivity].
    unfold reset_window_if_expired. cbn [restart_window_start child_with].
    destruct (restart_window_start c) as [ws|] eqn:Hws.
    + destruct (window_expired _ ws now) eqn:He; cbn [restart_window_start child_with];
        unfold restart_limit_exceeded; cbn [restart_window_start child_with spec restart_count].
      * rewrite window_not_expired_at_start by exact Hw. intros H%Z.leb_le. lia.
      * unfold window_expired in He |- *. cbn [spec child_with] in He |- *. rewrite He.
        intros H%Z.leb_le. lia.
    + unfold restart_limit_exceeded. cbn [restart_window_start child_with spec restart_count].
      rewrite window_not_expired_at_start by exact Hw. intros H%Z.leb_le. lia.
Qed.

Definition transient_spec : ChildSpec :=
  {| child_id := "worker"; manifest_path := "/path/to/worker.json";
     restart := Transient; max_restarts := 3; restart_intensity_window := 60;
     base_restart_delay_ms := 100; max_restart_delay_ms := 10000; backoff_factor := f64_of_Z 2 0 |}.

Definition sup_transient : SupervisorState :=
  (register_child {| children := ∅ |} transient_spec).2.

Lemma transient_and_temporary_actions_witness :
  (report_crash sup_transient "worker" "normal" 0).1 = Ok Stop /\
  exists d path lvl, (report_crash sup_transient "worker" "out of memory" 0).1 =
                     Ok (Restart d path lvl).
Proof.
  assert (Hc : children sup_transient !! "worker" = Some (child_new transient_spec))
    by (vm_compute; reflexivity).
  split.
  - apply (proj1 (proj1 (proj2 (transient_and_temporary_actions _ _ "normal" 0 _ Hc))
                  eq_refl (or_introl eq_refl))).
  - apply (proj2 (proj2 (transient_and_temporary_actions _ _ "out of memory" 0 _ Hc)));
      [reflexivity | discriminate | discriminate | simpl; lia
      | simpl; lia].
Defined.

End SupervisorProofs.

Module KernelProofs.
Import Kernel.

Section LaunchProofs.
Variable read_file : string -> option (list Z).
Variable parse_manifest : list Z -> option ModuleManifest.
Variable verify_module : string -> list Z -> string -> string -> bool.
Variable wasm_module : Type.
Variable compile_module : list Z -> option wasm_module.
Variable link_host_functions : list KCapability -> bool.
Variable instantiate : wasm_module -> list KCapability -> bool.

Let launch := launch_module read_file parse_manifest verify_module wasm_module
                compile_module link_host_functions instantiate.

(** C7. [launch_module] registers a handle only as its last step: every
    failing launch leaves the registry as it was. When the payload's
    SHA-256 differs from the descriptor's checksum, the launch fails with
    [ChecksumMismatch] and leaves the whole kernel state as it was: no
    handle under the module's name and no [ModuleLoaded] audit entry. *)
Theorem launch_failure_atomic (k : KernelState) (ts : Z) (mp : string) :
  (forall e, (launch k ts mp).1 = Err e -> registry (launch k ts mp).2 = registry k) /\
  (forall mbytes m bytes,
     read_file mp = Some mbytes -> parse_manifest mbytes = Some m ->
     read_file (path m) = Some bytes -> Sha256.hex_digest bytes <> checksum m ->
     launch k ts mp = (Err (ChecksumMismatch (checksum m) (Sha256.hex_digest bytes)), k) /\
     registry (launch k ts mp).2 !! name m = registry k !! name m /\
     Audit.get_all_entries (audit_log (launch k ts mp).2) =
       Audit.get_all_entries (audit_log k)).
Proof.
  subst launch. split.
  - intros e. unfold launch_module.
    destruct (read_file mp) as [mbytes|]; [|reflexivity].
    destruct (parse_manifest mbytes) as [m|]; [|reflexivity].
    destruct (read_file (path m)) as [bytes|]; [|reflexivity].
    destruct (verify_checksum bytes (checksum m)); [|reflexivity].
    destruct (verify_signature verify_module k bytes m); [|reflexivity].
    destruct (compile_module bytes); [|reflexivity].
    destruct (negb (link_host_functions _)); [reflexivity|].
    destruct (negb (instantiate _ _)); [reflexivity|].
    discriminate.
  - intros mbytes m bytes Hr Hp Hb Hne.
    assert (Hl : launch_module read_file parse_manifest verify_module wasm_module
                   compile_module link_host_functions instantiate k ts mp =
                 (Err (ChecksumMismatch (checksum m) (Sha256.hex_digest bytes)), k)).
    { unfold launch_module. rewrite Hr, Hp, Hb. unfold verify_checksum.
      destruct (String.eqb (Sha256.hex_digest bytes) (checksum m)) eqn:He.
      - apply String.eqb_eq in He. contradiction.
      - reflexivity. }
    rewrite Hl. split; [reflexivity|split; reflexivity].
Qed.
End LaunchProofs.

Definition hello_manifest : ModuleManifest :=
  {| name := "hello"; path := "hello.wasm";
     checksum := Sha256.hex_digest (Bytes.bytes_of_string "hello");
     capabilities := ["log"]; signature := None |}.

Definition world_fs (p : string) : option (list Z) :=
  if String.eqb p "hello.json" then Some (Bytes.bytes_of_string "descriptor")
  else if String.eqb p "hello.wasm" then Some (Bytes.bytes_of_string "world")
  else None.

Definition kernel0 : KernelState :=
  {| registry := ∅; config := {| max_fuel := 1000000; require_signatures := false |};
     signature_verifier := None; audit_log := Audit.log_new 10000 |}.

Lemma launch_failure_atomic_witness :
  launch_module world_fs (fun _ => Some hello_manifest) (fun _ _ _ _ => true) unit
    (fun _ => Some tt) (fun _ => true) (fun _ _ => true) kernel0 0 "hello.json" =
  (Err (ChecksumMismatch (checksum hello_manifest)
                         (Sha256.hex_digest (Bytes.bytes_of_string "world"))), kernel0).
Proof.
  assert (Hne : Sha256.hex_digest (Bytes.bytes_of_string "world") <> checksum hello_manifest)
    by (vm_compute; discriminate).
  destruct (launch_failure_atomic world_fs (fun _ => Some hello_manifest)
           (fun _ _ _ _ => true) unit (fun _ => Some tt) (fun _ => true) (fun _ _ => true)
           kernel0 0 "hello.json") as [_ H].
  exact (proj1 (H (Bytes.bytes_of_string "descriptor") hello_manifest
           (Bytes.bytes_of_string "world") eq_refl eq_refl eq_refl Hne)).
Defined.

End KernelProofs.

Module TokenProofs.
Import RustStr Capabilities.

Definition digit (k : Z) : ascii := ascii_of_nat (Z.to_nat (48 + k)).

Lemma digit_cases (P : Z -> Prop) k :
  0 <= k < 10 ->
  P 0 -> P 1 -> P 2 -> P 3 -> P 4 -> P 5 -> P 6 -> P 7 -> P 8 -> P 9 -> P k.
Proof.
  intros Hk. assert (k = 0 \/ k = 1 \/ k = 2 \/ k = 3 \/ k = 4 \/ k = 5 \/ k = 6 \/
                     k = 7 \/ k = 8 \/ k = 9) as Hc by lia.
  intros. repeat destruct Hc as [->|Hc]; auto. subst; auto.
Qed.

Lemma digit_value_digit k : 0 <= k < 10 -> digit_value (digit k) = Some k.
Proof. intros Hk. pattern k. apply digit_cases; [exact Hk|..]; reflexivity. Qed.

Lemma digit_not_sep k : 0 <= k < 10 -> Ascii.eqb (digit k) "_" = false.
Proof. intros Hk. pattern k. apply digit_cases; [exact Hk|..]; reflexivity. Qed.

Lemma parse_u64_digit k rest :
  0 <= k < 10 -> parse_u64 (String (digit k) rest) = parse_digits (String (digit k) rest) 0.
Proof. intros Hk. pattern k. apply digit_cases; [exact Hk|..]; reflexivity. Qed.

Lemma dec_digits_step f x acc :
  dec_digits (S f) x acc =
  if x <? 10 then String (digit (x mod 10)) acc
  else dec_digits f (x / 10) (String (digit (x mod 10)) acc).
Proof. reflexivity. Qed.

(** Formatting then parsing a [u64] gives it back. *)
Lemma parse_dec_digits f x acc :
  0 <= x < 2 ^ 64 -> x < 10 ^ Z.of_nat f ->
  parse_digits (dec_digits f x acc) 0 = parse_digits acc x.
Proof.
  revert x acc. induction f as [|f IH]; intros x acc Hx Hf.
  - simpl in Hf. replace x with 0 by lia. reflexivity.
  - assert (Hm : 0 <= x mod 10 < 10) by (apply Z.mod_pos_bound; lia).
    assert (Hd : x = x / 10 * 10 + x mod 10) by (rewrite Z.mul_comm; apply Z.div_mod; lia).
    rewrite dec_digits_step. destruct (x <? 10) eqn:Hlt.
    + apply Z.ltb_lt in Hlt. cbn [parse_digits]. rewrite digit_value_digit by exact Hm.
      rewrite Z.mod_small by lia. rewrite Z.mul_0_l, Z.add_0_l.
      destruct (x <? 2 ^ 64) eqn:Hb; [reflexivity|apply Z.ltb_ge in Hb; lia].
    + apply Z.ltb_ge in Hlt. rewrite IH.
      * cbn [parse_digits]. rewrite digit_value_digit by exact Hm. rewrite <- Hd.
        destruct (x <? 2 ^ 64) eqn:Hb; [reflexivity|apply Z.ltb_ge in Hb; lia].
      * split; [apply Z.div_pos; lia|]. apply Z.div_lt_upper_bound; lia.
      * apply Z.div_lt_upper_bound; [lia|]. rewrite Nat2Z.inj_succ, Z.pow_succ_r in Hf by lia. lia.
Qed.

(** The characters of a string, all not [sep]. *)
Fixpoint no_sep (sep : ascii) (s : string) : Prop :=
  match s with
  | EmptyString => True
  | String c rest => Ascii.eqb c sep = false /\ no_sep sep rest
  end.

Lemma split_on_app sep s t :
  no_sep sep s -> split_on sep (s ++ String sep t) = s :: split_on sep t.
Proof.
  induction s as [|c s IH]; intros Hs; simpl.
  - rewrite Ascii.eqb_refl. reflexivity.
  - destruct Hs as [Hc Hs]. rewrite Hc, IH by exact Hs. reflexivity.
Qed.

Lemma dec_digits_app f x acc t :
  dec_digits f x (acc ++ t) = (dec_digits f x acc ++ t)%string.
Proof.
  revert x acc. induction f as [|f IH]; intros x acc; [reflexivity|].
  rewrite !dec_digits_step. destruct (x <? 10); [reflexivity|].
  change (String (digit (x mod 10)) (acc ++ t)) with ((String (digit (x mod 10)) acc) ++ t)%string.
  apply IH.
Qed.

Lemma no_sep_app sep s t : no_sep sep s -> no_sep sep t -> no_sep sep (s ++ t).
Proof. induction s as [|c s IH]; simpl; intros; [done|]. split; [tauto|]. apply IH; tauto. Qed.

Lemma dec_digits_no_sep f x acc :
  no_sep "_" acc -> no_sep "_" (dec_digits f x acc).
Proof.
  revert x acc. induction f as [|f IH]; intros x acc Hacc; [exact Hacc|].
  assert (Hm : 0 <= x mod 10 < 10) by (apply Z.mod_pos_bound; lia).
  rewrite dec_digits_step. destruct (x <? 10).
  - split; [apply digit_not_sep, Hm|exact Hacc].
  - apply IH. split; [apply digit_not_sep, Hm|exact Hacc].
Qed.

Definition starts_digit (s : string) : Prop :=
  match s with
  | String c _ => exists k, 0 <= k < 10 /\ c = digit k
  | EmptyString => False
  end.

Lemma dec_digits_starts f x acc : starts_digit acc -> starts_digit (dec_digits f x acc).
Proof.
  revert x acc. induction f as [|f IH]; intros x acc Hacc; [exact Hacc|].
  assert (Hm : 0 <= x mod 10 < 10) by (apply Z.mod_pos_bound; lia).
  rewrite dec_digits_step. destruct (x <? 10).
  - simpl. eauto.
  - apply IH. simpl. eauto.
Qed.

Lemma u64_to_dec_starts x : starts_digit (u64_to_dec x).
Proof.
  unfold u64_to_dec. rewrite dec_digits_step.
  assert (Hm : 0 <= x mod 10 < 10) by (apply Z.mod_pos_bound; lia).
  destruct (x <? 10); [simpl; eauto|]. apply dec_digits_starts. simpl. eauto.
Qed.

Lemma parse_u64_dec x : 0 <= x < 2 ^ 64 -> parse_u64 (u64_to_dec x) = Some x.
Proof.
  intros Hx. pose proof (u64_to_dec_starts x) as Hs.
  destruct (u64_to_dec x) as [|c rest] eqn:He; [contradiction|].
  destruct Hs as (k & Hk & ->). rewrite parse_u64_digit by exact Hk.
  rewrite <- He. unfold u64_to_dec. rewrite parse_dec_digits; [reflexivity|exact Hx|].
  apply (Z.lt_trans _ (2 ^ 64)); [lia|]. vm_compute. reflexivity.
Qed.

Lemma token_new_id cid sec :
  0 <= cid < 2 ^ 64 -> capability_id (token_new cid sec) = Some cid.
Proof.
  intros Hc. unfold token_new.
  generalize (substring 0 16 (Sha256.hex_digest (Bytes.u64_to_le_bytes cid ++ sec))) as h.
  intros h. unfold capability_id.
  change ("cap_" ++ u64_to_dec cid ++ "_" ++ h)%string
    with (String "c" (String "a" (String "p" (String "_" (u64_to_dec cid ++ String "_" h))))).
  cbn [split_on Ascii.eqb]. rewrite split_on_app.
  - cbn. apply parse_u64_dec, Hc.
  - apply (dec_digits_no_sep _ _ EmptyString). exact I.
Qed.

End TokenProofs.

Module CapabilityExtras.
Import Capabilities CapabilityProofs TokenProofs.

Lemma revoke_loop_lookup ids cs rv k i :
  (revoke_loop ids cs rv k).1.1 !! i =
  if decide (i ∈ ids) then set_revoked <$> cs !! i else cs !! i.
Proof.
  revert cs rv k. induction ids as [|j ids IH]; intros cs rv k; simpl.
  - destruct (decide (i ∈ [])) as [Hi|]; [set_solver|done].
  - destruct (cs !! j) as [c|] eqn:Hj; rewrite IH.
    + destruct (decide (j = i)) as [->|Hne].
      * rewrite lookup_insert_eq, Hj.
        destruct (decide (i ∈ ids)); destruct (decide (i ∈ i :: ids)); set_solver || reflexivity.
      * rewrite lookup_insert_ne by done.
        destruct (decide (i ∈ ids)); destruct (decide (i ∈ j :: ids)); set_solver || reflexivity.
    + destruct (decide (j = i)) as [->|Hne].
      * rewrite Hj. destruct (decide (i ∈ ids)); destruct (decide (i ∈ i :: ids)); reflexivity.
      * destruct (decide (i ∈ ids)); destruct (decide (i ∈ j :: ids)); set_solver || reflexivity.
Qed.

Lemma revoke_loop_revocations ids cs rv k i :
  i ∈ (revoke_loop ids cs rv k).1.2 <-> i ∈ rv \/ (i ∈ ids /\ is_Some (cs !! i)).
Proof.
  revert cs rv k. induction ids as [|j ids IH]; intros cs rv k; simpl.
  - set_solver.
  - destruct (cs !! j) as [c|] eqn:Hj; rewrite IH.
    + destruct (decide (j = i)) as [->|Hne].
      * rewrite lookup_insert_eq, Hj. split; [set_solver|]. intros _. left. set_solver.
      * rewrite lookup_insert_ne by done. set_solver.
    + destruct (decide (j = i)) as [->|Hne].
      * rewrite Hj. split; [set_solver|]. intros [H|[_ H]]; [by left|by destruct H].
      * set_solver.
Qed.

(** Invariants of every reachable state: entries are keyed by their ids,
    revoked ids name entries of the table, and a [parent_id] names an
    entry of the table. *)
Definition RInv (m : CapabilityManager) : Prop :=
  (forall i c, capabilities m !! i = Some c -> id c = i) /\
  (forall i, i ∈ revocations m -> is_Some (capabilities m !! i)) /\
  (forall i c p, capabilities m !! i = Some c -> parent_id c = Some p ->
                 is_Some (capabilities m !! p)).

Lemma RInv_install m cid c tok :
  RInv m -> id c = cid -> (forall p, parent_id c = Some p -> is_Some (capabilities m !! p)) ->
  RInv (install (bump m) cid c tok).
Proof.
  intros (Hk & Hr & Hp) Hid Hc. unfold RInv, install, bump. cbn [capabilities revocations].
  split; [|split].
  - intros i d. destruct (decide (cid = i)) as [<-|Hne].
    + rewrite lookup_insert_eq. by intros [= <-].
    + rewrite lookup_insert_ne by done. apply Hk.
  - intros i Hi. destruct (decide (cid = i)) as [<-|Hne];
      [rewrite lookup_insert_eq; eauto|rewrite lookup_insert_ne by done; auto].
  - intros i d p. destruct (decide (cid = i)) as [<-|Hne].
    + rewrite lookup_insert_eq. intros [= <-] Hd. destruct (decide (cid = p)) as [<-|Hne'];
        [rewrite lookup_insert_eq; eauto|rewrite lookup_insert_ne by done; eauto].
    + rewrite lookup_insert_ne by done. intros Hd Hpd. destruct (decide (cid = p)) as [<-|Hne'];
        [rewrite lookup_insert_eq; eauto|rewrite lookup_insert_ne by done; eauto].
Qed.

Lemma RInv_view m m' :
  (forall i, view <$> capabilities m' !! i = view <$> capabilities m !! i) ->
  (forall i, i ∈ revocations m' -> i ∈ revocations m \/ is_Some (capabilities m' !! i)) ->
  RInv m -> RInv m'.
Proof.
  intros Hv Hrv (Hk & Hr & Hp). split; [|split].
  - intros i c Hc. specialize (Hv i). rewrite Hc in Hv.
    destruct (capabilities m !! i) as [c0|] eqn:Hc0; [|discriminate].
    injection Hv as Hid _ _. rewrite Hid. eauto.
  - intros i Hi. destruct (Hrv i Hi) as [H|H]; [|done].
    specialize (Hv i). destruct (Hr i H) as [c0 Hc0]. rewrite Hc0 in Hv.
    destruct (capabilities m' !! i); [eauto|discriminate].
  - intros i c p Hc Hpc. pose proof (Hv i) as Hvi. rewrite Hc in Hvi.
    destruct (capabilities m !! i) as [c0|] eqn:Hc0; [|discriminate].
    injection Hvi as _ _ Hpp. destruct (Hp i c0 p Hc0 ltac:(congruence)) as [pc Hpc0].
    pose proof (Hv p) as Hvp. rewrite Hpc0 in Hvp.
    destruct (capabilities m' !! p); [eauto|discriminate].
Qed.

Lemma RInv_step m m' : RInv m -> step m m' -> RInv m'.
Proof.
  intros HI Hs. destruct Hs as [m ts1 ts2 rt rid rs own v|m now ts1 ts2 tok own rs v|m tok|m tok].
  - apply RInv_install; [done|done|]. discriminate.
  - unfold delegate.
    destruct (validate m now tok [Delegate]) as [parent|e] eqn:Hv; [|done].
    destruct (missing_rights parent rs) as [|r0 rest]; [|done].
    apply RInv_install; [done|done|]. cbn [parent_id]. intros p [= <-].
    destruct (validate_ok_lookup _ _ _ _ _ Hv) as (pcid & Hpl).
    destruct HI as (Hk & _). rewrite (Hk _ _ Hpl). eauto.
  - unfold record_usage.
    destruct (capability_id tok) as [cid|]; [|done].
    destruct (capabilities m !! cid) as [c|] eqn:Hc; [|done].
    apply (RInv_view m); [|cbn; auto|done].
    intros i. cbn. destruct (decide (cid = i)) as [<-|Hne].
    + rewrite lookup_insert_eq, Hc. reflexivity.
    + rewrite lookup_insert_ne by done. reflexivity.
  - unfold revoke.
    destruct (capability_id tok) as [cid|]; [|done].
    destruct (revoke_loop _ (capabilities m) (revocations m) 0) as [[cs rv] count] eqn:Hr.
    apply (RInv_view m); [| |done].
    + intros i. cbn. erewrite <- (revoke_loop_view _ (capabilities m)). rewrite Hr. reflexivity.
    + intros i Hi. cbn in Hi |- *.
      pose proof (revoke_loop_revocations (cid :: map fst (filter (fun p => parent_id p.2 = Some cid)
                   (map_to_list (capabilities m)))) (capabilities m) (revocations m) 0 i) as Hrev.
      pose proof (revoke_loop_lookup (cid :: map fst (filter (fun p => parent_id p.2 = Some cid)
                   (map_to_list (capabilities m)))) (capabilities m) (revocations m) 0 i) as Hlk.
      rewrite Hr in Hrev, Hlk. cbn in Hrev, Hlk. apply Hrev in Hi as [Hi|[Hin Hs]]; [by left|right].
      rewrite Hlk. destruct (decide _); [|contradiction]. destruct Hs as [c ->]. eauto.
Qed.

Lemma RInv_reachable sec m : reachable sec m -> RInv m.
Proof.
  induction 1 as [|m m' _ IH Hs].
  - split; [|split]; cbn.
    + intros i c Hc. by rewrite lookup_empty in Hc.
    + set_solver.
    + intros i c p Hc. by rewrite lookup_empty in Hc.
  - eapply RInv_step; eauto.
Qed.

Lemma reachable_below_reachable sec m : reachable_below sec m -> reachable sec m.
Proof. induction 1; econstructor; eauto. Qed.

End CapabilityExtras.

Module CapabilityExtras2.
Import Capabilities CapabilityProofs TokenProofs CapabilityExtras.

(** Below [2 ^ 32] mints the revocation set is the set of ids whose
    entry is flagged [revoked]. *)
Definition FInv (m : CapabilityManager) : Prop :=
  forall i, i ∈ revocations m <-> exists c, capabilities m !! i = Some c /\ revoked c = true.

Lemma fresh_id m ts :
  Inv m -> next_id m < 2 ^ 32 -> capabilities m !! CapabilityId_new (next_id m) ts = None.
Proof.
  intros (Hb & Hk & _) Hlt. destruct (capabilities m !! _) as [c|] eqn:Hc; [|done].
  destruct (Hk _ _ Hc) as [_ Hl]. rewrite low32_id, low32_small in Hl by lia. lia.
Qed.

Lemma FInv_install m cid c tok :
  FInv m -> RInv m -> capabilities m !! cid = None -> revoked c = false ->
  FInv (install (bump m) cid c tok).
Proof.
  intros HF (_ & Hr & _) Hfresh Hc i. unfold install, bump. cbn [capabilities revocations].
  destruct (decide (cid = i)) as [<-|Hne].
  - rewrite lookup_insert_eq. split.
    + intros Hi. destruct (Hr _ Hi) as [c0 Hc0]. congruence.
    + intros (c' & [= <-] & Hc'). congruence.
  - rewrite lookup_insert_ne by done. apply HF.
Qed.

Lemma below_invariants sec m : reachable_below sec m -> Inv m /\ RInv m /\ FInv m.
Proof.
  intros Hm. split; [exact (Inv_reachable_below sec m Hm)|].
  split; [exact (RInv_reachable sec m (reachable_below_reachable sec m Hm))|].
  induction Hm as [|m m' Hm IH Hs Hle].
  - intros i. cbn. split; [set_solver|]. intros (c & Hc & _). by rewrite lookup_empty in Hc.
  - unfold FInv in IH. pose proof (Inv_reachable_below sec m Hm) as HI.
    pose proof (RInv_reachable sec m (reachable_below_reachable sec m Hm)) as HR.
    destruct Hs as [m ts1 ts2 rt rid rs own v|m now ts1 ts2 tok own rs v|m tok|m tok].
    + cbn in Hle. apply FInv_install; [done|done| |done].
      apply fresh_id; [done|]. by apply Inv_next_lt.
    + cbn in Hle |- *. unfold delegate in *.
      destruct (validate m now tok [Delegate]) as [parent|e]; [|done].
      destruct (missing_rights parent rs) as [|r0 rest]; [|done].
      apply FInv_install; [done|done| |done].
      apply fresh_id; [done|]. by apply Inv_next_lt.
    + unfold record_usage.
      destruct (capability_id tok) as [cid|]; [|done].
      destruct (capabilities m !! cid) as [c|] eqn:Hc; [|done].
      intros i. cbn. destruct (decide (cid = i)) as [<-|Hne].
      * rewrite lookup_insert_eq, IH, Hc. split.
        -- intros (c' & [= <-] & Hr). eauto.
        -- intros (c' & [= <-] & Hr). eauto.
      * rewrite lookup_insert_ne by done. apply IH.
    + unfold revoke.
      destruct (capability_id tok) as [cid|]; [|done].
      set (ids := cid :: map fst (filter (fun p => parent_id p.2 = Some cid)
                                       (map_to_list (capabilities m)))).
      pose proof (revoke_loop_revocations ids (capabilities m) (revocations m) 0) as Hrev.
      pose proof (revoke_loop_lookup ids (capabilities m) (revocations m) 0) as Hlk.
      destruct (revoke_loop ids (capabilities m) (revocations m) 0) as [[cs rv] count].
      intros i. cbn in Hrev, Hlk |- *. rewrite Hrev, Hlk.
      destruct (decide (i ∈ ids)) as [Hin|Hout].
      * destruct (capabilities m !! i) as [c|] eqn:Hc; cbn.
        -- split; [intros _; eauto|]. intros _. right. eauto.
        -- split; [|intros (c' & ? & _); discriminate].
           intros [Hi|[_ Hs]]; [|by destruct Hs]. apply IH in Hi as (c' & Hc' & _). congruence.
      * rewrite <- IH. split; [intros [H|[H _]]; [done|contradiction]|by left].
Qed.

Lemma count_revoked (cs : gmap Z Capability) (rv : gset Z) :
  (forall i, i ∈ rv <-> exists c, cs !! i = Some c /\ revoked c = true) ->
  (List.length (filter (fun c => revoked c = false) (map snd (map_to_list cs))) + size rv
   = size cs)%nat.
Proof.
  revert rv. induction cs as [|i x cs Hi IH] using map_ind; intros rv Hrv.
  - rewrite map_to_list_empty, map_size_empty.
    assert (rv = ∅) as ->.
    { apply set_eq. intros j. rewrite Hrv. setoid_rewrite lookup_empty. set_solver. }
    rewrite size_empty. reflexivity.
  - rewrite map_size_insert_None by done.
    assert (Hperm : map snd (map_to_list (<[i:=x]> cs)) ≡ₚ x :: map snd (map_to_list cs)).
    { rewrite map_to_list_insert by done. reflexivity. }
    rewrite (Permutation_length (filter_Permutation _ _ _ Hperm)).
    destruct (revoked x) eqn:Hx.
    + rewrite filter_cons_False by congruence.
      assert (Hin : i ∈ rv) by (apply Hrv; rewrite lookup_insert_eq; eauto).
      rewrite (union_difference_singleton_L i rv Hin), size_union, size_singleton by set_solver.
      rewrite <- (IH (rv ∖ {[i]})); [lia|].
      intros j. rewrite elem_of_difference, elem_of_singleton, Hrv.
      destruct (decide (i = j)) as [<-|Hne].
      * rewrite Hi. split; [tauto|]. intros (c & ? & _). discriminate.
      * rewrite lookup_insert_ne by done. naive_solver.
    + rewrite filter_cons_True by done. cbn [List.length].
      rewrite <- (IH rv); [lia|].
      intros j. rewrite Hrv. destruct (decide (i = j)) as [<-|Hne].
      * rewrite lookup_insert_eq, Hi. split; [intros (c & [= <-] & Hc); congruence|].
        intros (c & ? & _). discriminate.
      * rewrite lookup_insert_ne by done. reflexivity.
Qed.

End CapabilityExtras2.

Module CapabilityExtras3.
Import Capabilities CapabilityProofs TokenProofs CapabilityExtras CapabilityExtras2.

(** [CapabilityToken::capability_id] reads back the id that
    [CapabilityToken::new] wrote, for every [u64] id and every secret. *)
Theorem capability_id_token_new (cid : Z) (sec : list Z) (Hcid : 0 <= cid < 2 ^ 64) :
  capability_id (token_new cid sec) = Some cid.
Proof. exact (token_new_id cid sec Hcid). Qed.

Lemma capability_id_token_new_witness :
  capability_id (token_new 4294967297 secret0) = Some 4294967297.
Proof. apply capability_id_token_new. lia. Defined.

Lemma CapabilityId_new_range c ts : 0 <= CapabilityId_new c ts < 2 ^ 64.
Proof.
  assert (H : CapabilityId_new c ts = Z.land (CapabilityId_new c ts) (Z.ones 64)).
  { unfold CapabilityId_new. apply Z.bits_inj'. intros n Hn.
    rewrite !Z.land_spec, Z.lor_spec, !Z.land_spec.
    destruct (Z.lt_ge_cases n 64).
    - rewrite (Z.ones_spec_low 64 n) by lia. symmetry. apply andb_true_r.
    - rewrite (Z.ones_spec_high 64 n) by lia. change 0xFFFFFFFF with (Z.ones 32).
      rewrite (Z.ones_spec_high 32 n) by lia. rewrite !andb_false_r. reflexivity. }
  rewrite H, Z.land_ones by lia. apply Z.mod_pos_bound. lia.
Qed.

(** The token [create_capability] returns in a state below [2 ^ 32] mints. *)
Lemma fresh_validate sec m ts1 ts2 rt rid rs own v tok m' :
  reachable_below sec m -> next_id m < 2 ^ 32 ->
  create_capability m ts1 ts2 rt rid rs own v = (Ok tok, m') ->
  let c := {| id := CapabilityId_new (next_id m) ts1; resource_type := rt; resource_id := rid;
              rights := rs; owner := own; parent_id := None; validity := v; revoked := false;
              created_at := ts2 |} in
  capability_id tok = Some (id c) /\
  forall now req, is_expired v now = false -> is_exhausted v = false ->
    validate m' now tok req =
      match missing_rights c req with
      | [] => Ok c
      | miss => Err (InsufficientRights (map right_as_str miss) (map right_as_str rs))
      end.
Proof.
  intros Hm Hlt Hc c. destruct (below_invariants sec m Hm) as (HI & (_ & Hr & _) & _).
  unfold create_capability in Hc. injection Hc as <- <-.
  assert (Hid : capability_id (token_new (CapabilityId_new (next_id m) ts1) (secret m)) =
                Some (CapabilityId_new (next_id m) ts1))
    by (apply token_new_id, CapabilityId_new_range).
  split; [exact Hid|]. intros now req Hexp Hexh.
  unfold validate. rewrite Hid.
  rewrite bool_decide_eq_false_2.
  2:{ intros Hin. destruct (Hr _ Hin) as [c0 Hc0]. rewrite fresh_id in Hc0 by done. discriminate. }
  unfold install, bump. cbn [capabilities]. rewrite lookup_insert_eq.
  unfold is_valid. cbn [revoked validity c]. rewrite Hexp, Hexh. reflexivity.
Qed.

(** In a manager reached by the API before [2 ^ 32] capabilities have
    been minted, [create_capability] stores the new capability under its
    fresh id, and its token then validates against the stored record
    (while the validity is neither expired nor exhausted) exactly as far as
    the required rights are among those granted; otherwise the error names
    the missing rights and the granted ones. *)
Theorem fresh_token_validates (sec : list Z) (m : CapabilityManager)
    (Hm : reachable_below sec m) (Hlt : next_id m < 2 ^ 32) ts1 ts2 rt rid rs own v tok m'
    (Hc : create_capability m ts1 ts2 rt rid rs own v = (Ok tok, m')) :
  let c := {| id := CapabilityId_new (next_id m) ts1; resource_type := rt; resource_id := rid;
              rights := rs; owner := own; parent_id := None; validity := v; revoked := false;
              created_at := ts2 |} in
  capabilities m' !! id c = Some c /\
  forall now req, is_expired v now = false -> is_exhausted v = false ->
    validate m' now tok req =
      match missing_rights c req with
      | [] => Ok c
      | miss => Err (InsufficientRights (map right_as_str miss) (map right_as_str rs))
      end.
Proof.
  intros c. split.
  - unfold create_capability in Hc. injection Hc as _ <-. apply lookup_insert_eq.
  - exact (proj2 (fresh_validate sec m ts1 ts2 rt rid rs own v tok m' Hm Hlt Hc)).
Qed.

Lemma fresh_token_validates_witness :
  validate (create_capability s_b 5 6 Memory "r" [Read] "o" validity_default).2 0
    (token_new (CapabilityId_new 4 5) secret0) [Read; Write] =
  Err (InsufficientRights ["write"] ["read"]).
Proof.
  destruct (fresh_token_validates secret0 s_b s_b_reachable_below
              ltac:(vm_compute; reflexivity) 5 6 Memory "r" [Read] "o" validity_default
              (token_new (CapabilityId_new 4 5) secret0)
              (create_capability s_b 5 6 Memory "r" [Read] "o" validity_default).2
              ltac:(vm_compute; reflexivity)) as [_ H].
  rewrite (H 0 [Read; Write] eq_refl eq_refl). vm_compute. reflexivity.
Defined.




End CapabilityExtras3.

Module CapabilityExtras4.
Import Capabilities CapabilityProofs TokenProofs CapabilityExtras CapabilityExtras2.

Lemma elem_of_list_capabilities m o c :
  c ∈ list_capabilities m o <->
  exists i, capabilities m !! i = Some c /\ owner c = o /\ revoked c = false.
Proof.
  unfold list_capabilities. rewrite list_elem_of_filter, list_elem_of_fmap. split.
  - intros ([Ho Hr] & [i c'] & -> & Hin). apply elem_of_map_to_list in Hin. eauto.
  - intros (i & Hc & Ho & Hr). split; [done|]. exists (i, c). split; [done|].
    by apply elem_of_map_to_list.
Qed.

(** [list_capabilities m o] returns the capabilities of owner [o] that are
    not revoked; after a successful [revoke] of a token for id [cid], it
    no longer lists [cid] nor its direct children, and lists the rest as
    before. *)
Theorem list_capabilities_spec (m : CapabilityManager) (o : string) (c : Capability) :
  (c ∈ list_capabilities m o <->
   exists i, capabilities m !! i = Some c /\ owner c = o /\ revoked c = false) /\
  (forall tok cid n m', capability_id tok = Some cid -> revoke m tok = (Ok n, m') ->
     c ∈ list_capabilities m' o <->
     exists i, capabilities m !! i = Some c /\ owner c = o /\ revoked c = false /\
               i <> cid /\ parent_id c <> Some cid).
Proof.
  split; [apply elem_of_list_capabilities|].
  intros tok cid n m' Ht Hr. unfold revoke in Hr. rewrite Ht in Hr.
  set (ids := cid :: map fst (filter (fun p => parent_id p.2 = Some cid)
                                   (map_to_list (capabilities m)))) in Hr.
  pose proof (revoke_loop_lookup ids (capabilities m) (revocations m) 0) as Hlk.
  destruct (revoke_loop ids (capabilities m) (revocations m) 0) as [[cs rv] count].
  injection Hr as _ <-. rewrite elem_of_list_capabilities. cbn [capabilities] in *.
  cbn in Hlk. split.
  - intros (i & Hi & Ho & Hrv). rewrite Hlk in Hi.
    destruct (decide (i ∈ ids)) as [Hin|Hout].
    + destruct (capabilities m !! i); cbn in Hi; [|discriminate].
      injection Hi as <-. discriminate.
    + exists i. split; [done|]. split; [done|]. split; [done|]. split.
      * intros ->. apply Hout. subst ids. set_solver.
      * intros Hp. apply Hout. subst ids. apply elem_of_cons. right.
        apply elem_of_children. eauto.
  - intros (i & Hi & Ho & Hrv & Hne & Hp). exists i. split; [|done].
    rewrite Hlk. destruct (decide (i ∈ ids)) as [Hin|Hout]; [|done].
    subst ids. apply elem_of_cons in Hin as [->|Hin]; [done|].
    apply elem_of_children in Hin as (c' & Hc' & Hp'). congruence.
Qed.

Lemma list_capabilities_spec_witness :
  capability_id (token_new 1 secret0) = Some 1 /\
  list_capabilities (revoke s_b (token_new 1 secret0)).2 "B" <> [].
Proof.
  split; [vm_compute; reflexivity|].
  destruct (revoke s_b (token_new 1 secret0)) as [res m'] eqn:Hr.
  assert (Hres : res = Ok 2%nat) by (vm_compute in Hr; injection Hr as <- _; reflexivity).
  subst res. cbn [snd].
  destruct (capabilities s_b !! 3) as [c3|] eqn:H3; [|vm_compute in H3; discriminate].
  assert (Hin : c3 ∈ list_capabilities m' "B").
  { apply (proj2 (list_capabilities_spec s_b "B" c3) (token_new 1 secret0) 1 2%nat m'
             ltac:(vm_compute; reflexivity) Hr).
    exists 3. vm_compute in H3. injection H3 as <-.
    split; [vm_compute; reflexivity|]. split; [reflexivity|]. split; [reflexivity|].
    split; [lia|]. discriminate. }
  intros Hn. rewrite Hn in Hin. set_solver.
Defined.

(** In a manager reached by the API, revoking a token whose id is not in
    the table succeeds with a count of 0 and changes nothing. *)
Theorem revoke_unknown_id (sec : list Z) (m : CapabilityManager) (tok : string) (cid : Z)
    (Hm : reachable sec m) (Ht : capability_id tok = Some cid)
    (Hn : capabilities m !! cid = None) :
  revoke m tok = (Ok 0%nat, m).
Proof.
  destruct (RInv_reachable sec m Hm) as (_ & _ & Hp).
  unfold revoke. rewrite Ht.
  destruct (map fst (filter (fun p => parent_id p.2 = Some cid) (map_to_list (capabilities m))))
    as [|i rest] eqn:Hch.
  - cbn [revoke_loop]. rewrite Hn. destruct m; reflexivity.
  - exfalso. assert (Hi : i ∈ map fst (filter (fun p => parent_id p.2 = Some cid)
                                             (map_to_list (capabilities m))))
      by (rewrite Hch; set_solver).
    apply elem_of_children in Hi as (c & Hc & Hpc).
    destruct (Hp _ _ _ Hc Hpc) as [pc Hpc']. congruence.
Qed.

Lemma revoke_unknown_id_witness :
  revoke s_b (token_new 7 secret0) = (Ok 0%nat, s_b).
Proof.
  apply (revoke_unknown_id secret0 s_b (token_new 7 secret0) 7
           (reachable_below_reachable _ _ s_b_reachable_below));
    vm_compute; reflexivity.
Defined.

(** [stats] never reports more revocations than capabilities; in a
    manager reached before [2 ^ 32] mints, the active and revoked counts
    add up to the total. *)
Theorem stats_counts (sec : list Z) (m : CapabilityManager) :
  (reachable sec m -> (revoked_count (stats m) <= total_count (stats m))%nat) /\
  (reachable_below sec m ->
     (active_count (stats m) + revoked_count (stats m) = total_count (stats m))%nat).
Proof.
  split.
  - intros Hm. destruct (RInv_reachable sec m Hm) as (_ & Hr & _). cbn.
    rewrite <- (size_dom (capabilities m)). apply subseteq_size.
    intros i Hi. apply elem_of_dom, Hr, Hi.
  - intros Hm. destruct (below_invariants sec m Hm) as (_ & _ & HF). cbn.
    apply count_revoked, HF.
Qed.

Lemma stats_counts_witness :
  (active_count (stats (revoke s_b (token_new 2 secret0)).2) +
   revoked_count (stats (revoke s_b (token_new 2 secret0)).2) = 3)%nat.
Proof.
  assert (Hb : reachable_below secret0 (revoke s_b (token_new 2 secret0)).2).
  { eapply below_step; [exact s_b_reachable_below|apply step_revoke|vm_compute; discriminate]. }
  rewrite (proj2 (stats_counts secret0 _) Hb). vm_compute. reflexivity.
Defined.

End CapabilityExtras4.

Module CapabilityExtras5.
Import Capabilities CapabilityProofs.





End CapabilityExtras5.

Module AuditExtras.
Import Audit AuditProofs.

#[local] Opaque compute_hash genesis_hash.

Lemma seq_next_window (n mx : nat) :
  Z.of_nat n < 2 ^ 64 ->
  Nat.iter n seq_next ([], 0, mx) =
    (map Z.of_nat (seq (S n - Nat.min n (Nat.max 1 mx)) (Nat.min n (Nat.max 1 mx))),
     Z.of_nat n, mx).
Proof.
  induction n as [|n IH]; intros Hn; [reflexivity|].
  rewrite Nat.iter_succ, IH by lia. unfold seq_next.
  rewrite length_map, length_seq.
  replace ((Z.of_nat n + 1) mod 2 ^ 64) with (Z.of_nat (S n)) by (rewrite Z.mod_small; lia).
  f_equal. f_equal.
  destruct (mx <=? Nat.min n (Nat.max 1 mx))%nat eqn:Hm.
  - apply Nat.leb_le in Hm.
    destruct (Nat.min n (Nat.max 1 mx)) as [|k] eqn:Hk.
    + assert (n = 0)%nat as -> by lia. replace (Nat.min 1 (Nat.max 1 mx)) with 1%nat by lia.
      reflexivity.
    + replace (Nat.min (S n) (Nat.max 1 mx)) with (S k) by lia.
      replace (S (S n) - S k)%nat with (S (S n - S k)) by lia.
      rewrite (seq_S k (S (S n - S k))), map_app. cbn [seq map tail].
      replace (S (S n - S k) + k)%nat with (S n) by lia. reflexivity.
  - apply Nat.leb_gt in Hm.
    replace (Nat.min n (Nat.max 1 mx)) with n in * by lia.
    replace (Nat.min (S n) (Nat.max 1 mx)) with (S n) by lia.
    replace (S n - n)%nat with 1%nat by lia. replace (S (S n) - S n)%nat with 1%nat by lia.
    rewrite (seq_S n 1), map_app. replace (1 + n)%nat with (S n) by lia. reflexivity.
Qed.

Lemma append_all_sequences (max : nat) (evs : list (Z * AuditEvent)) :
  Z.of_nat (List.length evs) < 2 ^ 64 ->
  map sequence (entries (append_all (log_new max) evs)) =
    map Z.of_nat (seq (S (List.length evs) - Nat.min (List.length evs) (Nat.max 1 max))
                      (Nat.min (List.length evs) (Nat.max 1 max))) /\
  seq_counter (append_all (log_new max) evs) = Z.of_nat (List.length evs) /\
  max_entries (append_all (log_new max) evs) = max.
Proof.
  intros Hn. pose proof (seq_view_append_all (log_new max) evs) as Hv.
  change (seq_view (log_new max)) with (@nil Z, 0, max) in Hv.
  rewrite (seq_next_window _ _ Hn) in Hv. unfold seq_view in Hv.
  injection Hv as Hs Hc Hm. done.
Qed.

(** Appending to a log built from [AuditLog::new max] by [n] appends
    ([n] below [2^64]): it holds the [k = min n (max 1 max)] newest
    entries, with the consecutive sequences [n - k + 1] to [n], oldest
    first, and [stats] reports [n] entries in total, [k] in memory and the
    bound [max] (a bound of 0 still keeps the newest entry). *)
Theorem append_all_window (max : nat) (evs : list (Z * AuditEvent))
    (Hn : Z.of_nat (List.length evs) < 2 ^ 64) :
  map sequence (get_all_entries (append_all (log_new max) evs)) =
    map Z.of_nat (seq (S (List.length evs) - Nat.min (List.length evs) (Nat.max 1 max))
                      (Nat.min (List.length evs) (Nat.max 1 max))) /\
  stats (append_all (log_new max) evs) =
    {| total_entries := Z.of_nat (List.length evs);
       entries_in_memory := Nat.min (List.length evs) (Nat.max 1 max);
       stats_max_entries := max |}.
Proof.
  destruct (append_all_sequences max evs Hn) as (Hs & Hc & Hm).
  unfold get_all_entries, stats. split; [exact Hs|].
  rewrite Hc, Hm, <- (length_map sequence), Hs, length_map, length_seq. reflexivity.
Qed.

Lemma append_all_window_witness :
  stats (append_all (log_new 0) ten_events) =
    {| total_entries := 10; entries_in_memory := 1; stats_max_entries := 0 |}.
Proof. exact (proj2 (append_all_window 0 ten_events ltac:(vm_compute; reflexivity))). Defined.

Lemma filter_keep_all {A} (P : A -> Prop) `{!forall x, Decision (P x)} (l : list A) :
  Forall P l -> filter P l = l.
Proof.
  induction 1 as [|x l Hx _ IH]; [reflexivity|].
  rewrite filter_cons_True by done. f_equal. exact IH.
Qed.

Lemma filter_after_sorted (a : Z) (l : list AuditEntry) :
  StronglySorted (fun x y => sequence x < sequence y) l ->
  exists pre, l = pre ++ filter (fun e => a < sequence e) l /\
              Forall (fun e => sequence e <= a) pre.
Proof.
  induction 1 as [|e l Hs IH Hall]; [exists []; done|].
  destruct (decide (a < sequence e)) as [Hlt|Hge].
  - exists []. rewrite filter_cons_True by done. cbn [app]. split; [|constructor].
    f_equal. symmetry. apply filter_keep_all.
    eapply Forall_impl; [exact Hall|]. intros x Hx. cbn in Hx. lia.
  - destruct IH as (pre & Hl & Hpre). exists (e :: pre).
    rewrite filter_cons_False by done. split; [cbn [app]; f_equal; exact Hl|].
    constructor; [lia|exact Hpre].
Qed.

Lemma sorted_of_consecutive (l : list AuditEntry) (s k : nat) :
  map sequence l = map Z.of_nat (seq s k) ->
  StronglySorted (fun x y => sequence x < sequence y) l.
Proof.
  revert s k. induction l as [|e l IH]; intros s k H; [constructor|].
  destruct k as [|k]; [discriminate|]. cbn in H. injection H as He Hl.
  constructor; [exact (IH _ _ Hl)|].
  apply Forall_forall. intros x Hx.
  assert (Hin : sequence x ∈ map Z.of_nat (seq (S s) k))
    by (rewrite <- Hl; apply list_elem_of_fmap; eauto).
  apply list_elem_of_fmap in Hin as (y & -> & Hy). apply elem_of_seq in Hy. lia.
Qed.

(** [get_entries_after log a] on a log built by fewer than [2^64] appends
    from [AuditLog::new] is a suffix of the retained entries: they are the
    older entries, all with sequence at most [a], followed by the query's
    result. *)
Theorem get_entries_after_suffix (max : nat) (evs : list (Z * AuditEvent)) (a : Z)
    (Hn : Z.of_nat (List.length evs) < 2 ^ 64) :
  exists pre, get_all_entries (append_all (log_new max) evs) =
                pre ++ get_entries_after (append_all (log_new max) evs) a /\
              Forall (fun e => sequence e <= a) pre.
Proof.
  apply filter_after_sorted. eapply sorted_of_consecutive.
  exact (proj1 (append_all_sequences max evs Hn)).
Qed.

Lemma get_entries_after_suffix_witness :
  exists pre, get_all_entries (append_all (log_new 5) ten_events) =
                pre ++ get_entries_after (append_all (log_new 5) ten_events) 8 /\
              Forall (fun e => sequence e <= 8) pre.
Proof. apply (get_entries_after_suffix 5 ten_events 8); vm_compute; reflexivity. Defined.

(** While the log is below its bound, [append] keeps every entry and adds
    the new one last, so each query of the new log is the same query of
    the old log followed by the new entry when it matches. *)
Theorem queries_append (log : AuditLog) (ts : Z) (ev : AuditEvent) (a start end_ : Z) (src : string)
    (Hroom : (List.length (entries log) < max_entries log)%nat) :
  get_all_entries (append log ts ev).2 = get_all_entries log ++ [(append log ts ev).1] /\
  get_entries_after (append log ts ev).2 a =
    get_entries_after log a ++ filter (fun e => a < sequence e) [(append log ts ev).1] /\
  get_entries_in_range (append log ts ev).2 start end_ =
    get_entries_in_range log start end_ ++
    filter (fun e => start <= timestamp e /\ timestamp e <= end_) [(append log ts ev).1] /\
  get_entries_by_source (append log ts ev).2 src =
    get_entries_by_source log src ++ filter (fun e => source e = src) [(append log ts ev).1].
Proof.
  assert (He : entries (append log ts ev).2 = entries log ++ [(append log ts ev).1]).
  { unfold append. cbn [fst snd entries].
    destruct (max_entries log <=? List.length (entries log))%nat eqn:Hm; [|reflexivity].
    apply Nat.leb_le in Hm. lia. }
  unfold get_all_entries, get_entries_after, get_entries_in_range, get_entries_by_source.
  rewrite He, !filter_app. done.
Qed.

Definition module_started : AuditEvent :=
  {| event_type := ModuleStarted "m"; event_source := "supervisor" |}.

Definition log_two : AuditLog :=
  append_all (log_new 3) [(1, kernel_started); (2, module_started)].

Lemma queries_append_witness :
  map sequence (get_all_entries (append log_two 5 kernel_started).2) = [1; 2; 3] /\
  map sequence (get_entries_after (append log_two 5 kernel_started).2 1) = [2; 3] /\
  map sequence (get_entries_in_range (append log_two 5 kernel_started).2 2 5) = [2; 3] /\
  map sequence (get_entries_by_source (append log_two 5 kernel_started).2 "kernel") = [1; 3].
Proof.
  destruct (queries_append log_two 5 kernel_started 1 2 5 "kernel"
              ltac:(apply Nat.ltb_lt; vm_compute; reflexivity)) as (H1 & H2 & H3 & H4).
  rewrite H1, H2, H3, H4. split; [|split; [|split]]; vm_compute; reflexivity.
Defined.

End AuditExtras.

Module SupervisorExtras.
Import Supervisor SupervisorProofs.

(** Whatever the branch, [report_crash] on a registered child rewrites
    that child alone: its spec is kept, [last_crash] becomes [now] and
    [total_crashes] goes up by one (on [u64]); the other children are
    untouched. An unknown id is an error [Child <id> not found] with nothing
    changed. *)
Theorem report_crash_bookkeeping (sup : SupervisorState) (cid err : string) (now : Z) :
  (children sup !! cid = None ->
     report_crash sup cid err now = (Err ("Child " ++ cid ++ " not found")%string, sup)) /\
  (forall c, children sup !! cid = Some c ->
     exists c', (report_crash sup cid err now).2 = {| children := <[cid := c']> (children sup) |} /\
       spec c' = spec c /\ last_crash c' = Some now /\
       total_crashes c' = (total_crashes c + 1) mod 2 ^ 64).
Proof.
  unfold report_crash. split.
  - intros ->. reflexivity.
  - intros c ->. cbv zeta. unfold reset_window_if_expired.
    repeat (case_match; cbn [fst snd]);
      (eexists; split; [reflexivity|]); cbn; auto.
Qed.

Lemma report_crash_bookkeeping_witness :
  total_crashes <$> children (crash sup_running 0).2 !! "backoff-module" = Some 1.
Proof.
  destruct (children sup_running !! "backoff-module") as [c|] eqn:Hc;
    [|vm_compute in Hc; discriminate].
  destruct (proj2 (report_crash_bookkeeping sup_running "backoff-module" "error" 0) c Hc)
    as (c' & Hs & _ & _ & Ht).
  unfold crash. rewrite Hs. cbn [children]. rewrite lookup_insert_eq. cbn [fmap option_fmap option_map].
  rewrite Ht. vm_compute in Hc. injection Hc as <-. reflexivity.
Defined.

(** The supervisor's API calls as steps on its state; [execute_restart]
    with any callback. *)
Inductive sup_step : SupervisorState -> SupervisorState -> Prop :=
  | sup_step_register sup s : sup_step sup (register_child sup s).2
  | sup_step_started sup cid : sup_step sup (report_started sup cid).2
  | sup_step_crash sup cid err now : sup_step sup (report_crash sup cid err now).2
  | sup_step_unregister sup cid : sup_step sup (unregister_child sup cid).2
  | sup_step_shutdown sup : sup_step sup (shutdown_all sup)
  | sup_step_execute cb sup cid a : sup_step sup (execute_restart cb sup cid a).2.

Inductive sup_reachable : SupervisorState -> Prop :=
  | sup_reachable_new : sup_reachable {| children := ∅ |}
  | sup_reachable_step sup sup' : sup_reachable sup -> sup_step sup sup' -> sup_reachable sup'.

(** What holds of the child stored under key [k]. *)
Definition child_ok (k : string) (c : ChildInfo) : Prop :=
  child_id (spec c) = k /\
  0 <= restart_count c < 2 ^ 32 /\
  0 <= total_crashes c < 2 ^ 64 /\
  (forall n, state c = Restarting n -> restart_count c = n) /\
  (last_crash c = None ->
     total_crashes c = 0 /\ restart_count c = 0 /\ restart_window_start c = None).

Definition table_ok (sup : SupervisorState) : Prop :=
  forall k c, children sup !! k = Some c -> child_ok k c.

Lemma table_ok_insert sup k c :
  table_ok sup -> child_ok k c -> table_ok {| children := <[k := c]> (children sup) |}.
Proof.
  intros Ht Hc k' c'. cbn [children]. destruct (decide (k = k')) as [<-|Hne].
  - rewrite lookup_insert_eq. intros [= <-]. exact Hc.
  - rewrite lookup_insert_ne by done. apply Ht.
Qed.

Lemma child_ok_set_state k c st :
  child_ok k c -> (forall n, st = Restarting n -> restart_count c = n) ->
  child_ok k (set_state c st).
Proof.
  intros (Hid & Hrc & Htc & _ & Hlc) Hst. unfold child_ok. cbn. auto.
Qed.

Lemma report_crash_table_ok sup cid err now :
  table_ok sup -> table_ok (report_crash sup cid err now).2.
Proof.
  intros Ht. unfold report_crash.
  destruct (children sup !! cid) as [c0|] eqn:Hc0; [|exact Ht].
  destruct (Ht _ _ Hc0) as (Hid & Hrc & Htc & _ & _).
  pose proof (Z.mod_pos_bound (total_crashes c0 + 1) (2 ^ 64) ltac:(lia)) as Htc1.
  assert (H1 : child_id (spec (child_with c0 (Crashed err) (restart_count c0)
                 (restart_window_start c0) (Some now) (escalation_level c0)
                 ((total_crashes c0 + 1) mod 2 ^ 64))) = cid /\
               0 <= restart_count (child_with c0 (Crashed err) (restart_count c0)
                 (restart_window_start c0) (Some now) (escalation_level c0)
                 ((total_crashes c0 + 1) mod 2 ^ 64)) < 2 ^ 32 /\
               0 <= total_crashes (child_with c0 (Crashed err) (restart_count c0)
                 (restart_window_start c0) (Some now) (escalation_level c0)
                 ((total_crashes c0 + 1) mod 2 ^ 64)) < 2 ^ 64 /\
               last_crash (child_with c0 (Crashed err) (restart_count c0)
                 (restart_window_start c0) (Some now) (escalation_level c0)
                 ((total_crashes c0 + 1) mod 2 ^ 64)) = Some now)
    by (cbn; auto).
  revert H1.
  generalize (child_with c0 (Crashed err) (restart_count c0) (restart_window_start c0)
                (Some now) (escalation_level c0) ((total_crashes c0 + 1) mod 2 ^ 64)) as c1.
  intros c1 (Hid1 & Hrc1 & Htc1' & Hlc1). cbv zeta.
  assert (Hok : forall st, (forall n, st = Restarting n -> restart_count c1 = n) ->
                child_ok cid (set_state c1 st)).
  { intros st Hst. unfold child_ok. cbn. rewrite Hlc1.
    split; [exact Hid1|]. split; [lia|]. split; [lia|]. split; [exact Hst|].
    intros Hx. discriminate Hx. }
  destruct (restart (spec c1)); cbn [fst snd];
    [| apply table_ok_insert; [exact Ht|apply Hok; discriminate]
     | destruct (String.eqb err "normal" || String.eqb err "shutdown");
         cbn [fst snd]; [apply table_ok_insert; [exact Ht|apply Hok; discriminate]|] ];
    (unfold reset_window_if_expired;
     set (c2 := match restart_window_start c1 with
                | Some ws => if window_expired c1 ws now
                             then child_with c1 (state c1) 0 (Some now) (last_crash c1)
                                    Level1RestartWithState (total_crashes c1)
                             else c1
                | None => c1 end);
     assert (H2 : spec c2 = spec c1 /\ 0 <= restart_count c2 < 2 ^ 32 /\
                  total_crashes c2 = total_crashes c1 /\ last_crash c2 = Some now)
       by (subst c2; repeat case_match; cbn; repeat split; first [reflexivity | lia | assumption]);
     clearbody c2; destruct H2 as (Hs2 & Hrc2 & Htc2 & Hlc2);
     set (c3 := match restart_window_start c2 with
                | None => child_with c2 (state c2) (restart_count c2) (Some now)
                            (last_crash c2) (escalation_level c2) (total_crashes c2)
                | Some _ => c2 end);
     assert (H3 : spec c3 = spec c1 /\ 0 <= restart_count c3 < 2 ^ 32 /\
                  total_crashes c3 = total_crashes c1 /\ last_crash c3 = Some now)
       by (subst c3; case_match; cbn; repeat split; first [reflexivity | lia | assumption]);
     clearbody c3; destruct H3 as (Hs3 & Hrc3 & Htc3 & Hlc3);
     destruct (restart_limit_exceeded c3 now) eqn:Hex; cbn [andb];
     [destruct (4 <=? level_rank (next (escalation_level c3))); cbn [fst snd]|];
     apply table_ok_insert; try exact Ht;
     unfold child_ok; cbn; rewrite ?Hs3, ?Hlc3, ?Htc3;
     (split; [exact Hid1|]);
     (split; [try (apply Z.mod_pos_bound; lia); lia|]);
     (split; [lia|]);
     (split; [intros n Hn; congruence|]);
     intros Hx; discriminate Hx).
Qed.

Lemma sup_step_table_ok sup sup' : table_ok sup -> sup_step sup sup' -> table_ok sup'.
Proof.
  intros Ht Hs. destruct Hs as [sup s|sup cid|sup cid err now|sup cid|sup|cb sup cid a].
  - unfold register_child. destruct (children sup !! child_id s); [exact Ht|].
    apply table_ok_insert; [exact Ht|]. unfold child_ok. cbn.
    split; [reflexivity|]. split; [lia|]. split; [lia|]. split; [discriminate|]. auto.
  - unfold report_started. destruct (children sup !! cid) as [c|] eqn:Hc; [|exact Ht].
    apply table_ok_insert; [exact Ht|]. apply child_ok_set_state; [exact (Ht _ _ Hc)|discriminate].
  - apply report_crash_table_ok. exact Ht.
  - unfold unregister_child. destruct (children sup !! cid) as [c0|]; [|exact Ht].
    intros k c. cbn [snd children]. destruct (decide (cid = k)) as [<-|Hne].
    + rewrite lookup_delete_eq. discriminate.
    + rewrite lookup_delete_ne by done. apply Ht.
  - intros k c. unfold shutdown_all. cbn [children]. rewrite lookup_fmap.
    destruct (children sup !! k) as [c0|] eqn:Hc; [|discriminate].
    intros [= <-]. apply child_ok_set_state; [exact (Ht _ _ Hc)|discriminate].
  - unfold execute_restart. destruct a as [d mp lvl| |l]; [|exact Ht|exact Ht].
    destruct (cb cid mp lvl); [|exact Ht]. cbn [snd].
    destruct (children sup !! cid) as [c|] eqn:Hc; [|exact Ht].
    apply table_ok_insert; [exact Ht|]. apply child_ok_set_state; [exact (Ht _ _ Hc)|discriminate].
Qed.

(** In every state the supervisor's API reaches, from an empty table: the
    child stored under [k] has [child_id k]; its [u32] restart count and
    [u64] crash count are in range; a child [Restarting n] has restart
    count [n]; and a child that never crashed has no crashes, no restarts
    and no restart window. *)
Theorem supervisor_table_invariant (sup : SupervisorState) (Hr : sup_reachable sup)
    (k : string) (c : ChildInfo) (Hc : children sup !! k = Some c) :
  child_id (spec c) = k /\
  0 <= restart_count c < 2 ^ 32 /\
  0 <= total_crashes c < 2 ^ 64 /\
  (forall n, state c = Restarting n -> restart_count c = n) /\
  (last_crash c = None ->
     total_crashes c = 0 /\ restart_count c = 0 /\ restart_window_start c = None).
Proof.
  assert (Ht : table_ok sup).
  { clear k c Hc. induction Hr as [|sup sup' _ IH Hs].
    - intros k c Hc. cbn [children] in Hc. by rewrite lookup_empty in Hc.
    - exact (sup_step_table_ok sup sup' IH Hs). }
  exact (Ht k c Hc).
Qed.

Lemma supervisor_table_invariant_witness :
  restart_count <$> children (crash sup_running 0).2 !! "backoff-module" = Some 1 /\
  (forall n, state <$> children (crash sup_running 0).2 !! "backoff-module" =
               Some (Restarting n) -> n = 1).
Proof.
  assert (Hr : sup_reachable (crash sup_running 0).2).
  { unfold crash, sup_running.
    eapply sup_reachable_step; [|apply sup_step_crash].
    eapply sup_reachable_step; [|apply sup_step_started].
    eapply sup_reachable_step; [apply sup_reachable_new|apply sup_step_register]. }
  destruct (children (crash sup_running 0).2 !! "backoff-module") as [c|] eqn:Hc;
    [|vm_compute in Hc; discriminate].
  destruct (supervisor_table_invariant _ Hr "backoff-module" c Hc) as (_ & _ & _ & Hst & _).
  assert (Hrc : restart_count c = 1) by (vm_compute in Hc; injection Hc as <-; reflexivity).
  split; [cbn; rewrite Hrc; reflexivity|].
  intros n Hn. cbn in Hn. injection Hn as Hn. rewrite <- (Hst n Hn). exact Hrc.
Defined.

End SupervisorExtras.

Module SupervisorExtras2.
Import Supervisor SupervisorProofs SupervisorExtras.

(** [shutdown_all] marks every registered child [Terminated], keeping its
    spec, counters and escalation level, and neither adds nor removes
    children. [report_crash] ignores the state it overwrites, so after
    [shutdown_all] a crash report returns the same action as before it,
    and stores the same record for the crashed child. *)
Theorem shutdown_all_spec (sup : SupervisorState) (cid err : string) (now : Z) :
  (forall i, children (shutdown_all sup) !! i =
     (fun c => {| spec := spec c; state := Terminated; restart_count := restart_count c;
                  restart_window_start := restart_window_start c; last_crash := last_crash c;
                  escalation_level := escalation_level c; total_crashes := total_crashes c |})
       <$> children sup !! i) /\
  (report_crash (shutdown_all sup) cid err now).1 = (report_crash sup cid err now).1 /\
  children (report_crash (shutdown_all sup) cid err now).2 !! cid =
    children (report_crash sup cid err now).2 !! cid.
Proof.
  split; [intros i; unfold shutdown_all; cbn [children]; apply lookup_fmap|].
  unfold report_crash, shutdown_all. cbn [children]. rewrite lookup_fmap.
  destruct (children sup !! cid) as [c|] eqn:Hc; cbn [fmap option_fmap option_map];
    [|cbn [fst snd children]; rewrite lookup_fmap, Hc; split; reflexivity].
  replace (child_with (set_state c Terminated) (Crashed err)
             (restart_count (set_state c Terminated))
             (restart_window_start (set_state c Terminated)) (Some now)
             (escalation_level (set_state c Terminated))
             ((total_crashes (set_state c Terminated) + 1) mod 2 ^ 64))
    with (child_with c (Crashed err) (restart_count c) (restart_window_start c) (Some now)
            (escalation_level c) ((total_crashes c + 1) mod 2 ^ 64)) by reflexivity.
  generalize (child_with c (Crashed err) (restart_count c) (restart_window_start c) (Some now)
                (escalation_level c) ((total_crashes c + 1) mod 2 ^ 64)) as c1.
  intros c1. cbv zeta.
  destruct (restart (spec c1)); cbn [fst snd children];
    [| rewrite !lookup_insert_eq; split; reflexivity
     | destruct (String.eqb err "normal" || String.eqb err "shutdown");
         cbn [fst snd children]; [rewrite !lookup_insert_eq; split; reflexivity|]];
    (destruct (restart_limit_exceeded _ now && _); cbn [fst snd children];
     rewrite !lookup_insert_eq; split; reflexivity).
Qed.

End SupervisorExtras2.

Module KernelExtras.
Import Kernel KernelProofs.

(** [parse_capabilities] grants a capability exactly when its name is
    listed verbatim ([log], [audit_emit], [persistence_read],
    [persistence_write], case-sensitive) and silently drops every other
    string, so it never grants more entries than the manifest lists. *)
Theorem parse_capabilities_exact (m : ModuleManifest) :
  (Log ∈ parse_capabilities m <-> "log" ∈ capabilities m) /\
  (AuditEmit ∈ parse_capabilities m <-> "audit_emit" ∈ capabilities m) /\
  (PersistenceRead ∈ parse_capabilities m <-> "persistence_read" ∈ capabilities m) /\
  (PersistenceWrite ∈ parse_capabilities m <-> "persistence_write" ∈ capabilities m) /\
  (List.length (parse_capabilities m) <= List.length (capabilities m))%nat /\
  (List.length (parse_capabilities m) = List.length (capabilities m) <->
   Forall (fun s => s = "log" \/ s = "audit_emit" \/ s = "persistence_read" \/
                    s = "persistence_write") (capabilities m)).
Proof.
  assert (Hfrom : forall s x, kcap_from_str s = Some x <->
            (x = Log /\ s = "log") \/ (x = AuditEmit /\ s = "audit_emit") \/
            (x = PersistenceRead /\ s = "persistence_read") \/
            (x = PersistenceWrite /\ s = "persistence_write")).
  { intros s x. unfold kcap_from_str.
    destruct (String.eqb_spec s "log") as [->|H1]; [split; [intros [= <-]; auto|];
      intros [[-> _]|[[_ ?]|[[_ ?]|[_ ?]]]]; [reflexivity|discriminate..]|].
    destruct (String.eqb_spec s "audit_emit") as [->|H2]; [split; [intros [= <-]; auto|];
      intros [[_ ?]|[[-> _]|[[_ ?]|[_ ?]]]]; [discriminate|reflexivity|discriminate..]|].
    destruct (String.eqb_spec s "persistence_read") as [->|H3]; [split; [intros [= <-]; auto|];
      intros [[_ ?]|[[_ ?]|[[-> _]|[_ ?]]]]; [discriminate..|reflexivity|discriminate]|].
    destruct (String.eqb_spec s "persistence_write") as [->|H4]; [split; [intros [= <-]; auto 10|];
      intros [[_ ?]|[[_ ?]|[[_ ?]|[-> _]]]]; [discriminate..|reflexivity]|].
    split; [discriminate|]. intros [[_ ?]|[[_ ?]|[[_ ?]|[_ ?]]]]; congruence. }
  unfold parse_capabilities.
  assert (Hmem : forall x, x ∈ omap kcap_from_str (capabilities m) <->
                  exists s, s ∈ capabilities m /\ kcap_from_str s = Some x).
  { intros x. rewrite list_elem_of_omap. naive_solver. }
  split; [|split; [|split; [|split; [|split]]]];
    try (rewrite Hmem; split; [intros (s & Hs & Hx); apply Hfrom in Hx; naive_solver
                              |intros Hs; eexists; split; [exact Hs|reflexivity]]).
  - clear Hmem. induction (capabilities m) as [|s l IH]; [reflexivity|]. cbn.
    destruct (kcap_from_str s); cbn; lia.
  - clear Hmem. induction (capabilities m) as [|s l IH]; [split; [constructor|reflexivity]|]. cbn.
    rewrite Forall_cons.
    destruct (kcap_from_str s) as [x|] eqn:Hs; cbn.
    + assert (Hx : s = "log" \/ s = "audit_emit" \/ s = "persistence_read" \/
                   s = "persistence_write") by (apply Hfrom in Hs; naive_solver).
      rewrite <- IH. split; [intros [= H]; split; [exact Hx|exact H]|intros [_ ->]; reflexivity].
    + split.
      * intros H. exfalso.
        assert (Hle : (List.length (omap kcap_from_str l) <= List.length l)%nat).
        { clear. induction l as [|s' l IH]; [reflexivity|]. cbn.
          destruct (kcap_from_str s'); cbn; lia. }
        lia.
      * intros [Hx _]. exfalso.
        destruct Hx as [-> | [-> | [-> | ->]]]; discriminate.
Qed.

(** [Kernel::shutdown] empties the registry, so [list_modules] is empty
    afterwards, and appends one [KernelShutdown "normal shutdown"] entry
    from [kernel] as the newest audit entry, keeping a well-linked audit
    chain well linked; the configuration and verifier are kept. *)
Theorem shutdown_spec (k : KernelState) (ts : Z) :
  kernel_list_modules (shutdown k ts) = [] /\
  (forall nm, get_module_capabilities (registry (shutdown k ts)) nm = None) /\
  config (shutdown k ts) = config k /\
  signature_verifier (shutdown k ts) = signature_verifier k /\
  (exists e, last (Audit.get_all_entries (audit_log (shutdown k ts))) = Some e /\
     Audit.event e = Audit.KernelShutdown "normal shutdown" /\ Audit.source e = "kernel" /\
     Audit.sequence e = (Audit.seq_counter (audit_log k) + 1) mod 2 ^ 64) /\
  (AuditProofs.chain_wf (audit_log k) -> AuditProofs.chain_wf (audit_log (shutdown k ts))).
Proof.
  split; [reflexivity|]. split; [intros nm; reflexivity|].
  split; [reflexivity|]. split; [reflexivity|]. split.
  - exists (Audit.append (audit_log k) ts
              {| Audit.event_type := Audit.KernelShutdown "normal shutdown";
                 Audit.event_source := "kernel" |}).1.
    split; [|split; [reflexivity|split; reflexivity]].
    unfold shutdown, Audit.append, Audit.get_all_entries. cbn [audit_log fst snd Audit.entries].
    apply last_snoc.
  - apply AuditProofs.chain_wf_append.
Qed.

Section LaunchSuccess.
Variable read_file : string -> option (list Z).
Variable parse_manifest : list Z -> option ModuleManifest.
Variable verify_module : string -> list Z -> string -> string -> bool.
Variable wasm_module : Type.
Variable compile_module : list Z -> option wasm_module.
Variable link_host_functions : list KCapability -> bool.
Variable instantiate : wasm_module -> list KCapability -> bool.

(** A launch that returns [Ok] has read a descriptor and a payload whose
    SHA-256 is the descriptor's checksum, has checked the signature when
    signatures are required, and has registered the module under its name
    with the capabilities parsed from the descriptor, leaving every other
    name as it was; its newest audit entry is [ModuleLoaded] for that
    module from [kernel]. *)
Theorem launch_success (k : KernelState) (ts : Z) (mp : string)
    (Hok : (launch_module read_file parse_manifest verify_module wasm_module compile_module
              link_host_functions instantiate k ts mp).1 = Ok tt) :
  let k' := (launch_module read_file parse_manifest verify_module wasm_module compile_module
               link_host_functions instantiate k ts mp).2 in
  exists mbytes m bytes,
    read_file mp = Some mbytes /\ parse_manifest mbytes = Some m /\
    read_file (path m) = Some bytes /\ Sha256.hex_digest bytes = checksum m /\
    (require_signatures (config k) = true ->
       exists sg key, signature m = Some sg /\ signature_verifier k = Some key /\
                      verify_module key bytes (checksum m) sg = true) /\
    get_module_capabilities (registry k') (name m) = Some (parse_capabilities m) /\
    (forall nm, nm <> name m -> registry k' !! nm = registry k !! nm) /\
    exists e, last (Audit.get_all_entries (audit_log k')) = Some e /\
      Audit.event e = Audit.ModuleLoaded (name m) (checksum m) /\ Audit.source e = "kernel".
Proof.
  revert Hok. unfold launch_module.
  destruct (read_file mp) as [mbytes|] eqn:Hr; [|discriminate].
  destruct (parse_manifest mbytes) as [m|] eqn:Hp; [|discriminate].
  destruct (read_file (path m)) as [bytes|] eqn:Hb; [|discriminate].
  destruct (verify_checksum bytes (checksum m)) as [u|e] eqn:Hc; [|discriminate].
  destruct (verify_signature verify_module k bytes m) as [v|e] eqn:Hs; [|discriminate].
  destruct (compile_module bytes) as [wm|]; [|discriminate].
  destruct (negb (link_host_functions _)); [discriminate|].
  destruct (negb (instantiate _ _)); [discriminate|].
  intros _. cbv zeta. exists mbytes, m, bytes.
  do 3 (split; [first [reflexivity|assumption]|]). split.
  { unfold verify_checksum in Hc. destruct (String.eqb_spec (Sha256.hex_digest bytes) (checksum m));
      [assumption|discriminate]. }
  split.
  { intros Hreq. unfold verify_signature in Hs. rewrite Hreq in Hs.
    destruct (signature m) as [sg|]; [|discriminate].
    destruct (signature_verifier k) as [key|]; [|discriminate].
    destruct (verify_module key bytes (checksum m) sg) eqn:Hv; [|discriminate]. eauto. }
  cbn [fst snd registry audit_log with_audit].
  split; [unfold get_module_capabilities, ModuleRegistry; rewrite lookup_insert_eq; reflexivity|].
  split; [intros nm Hne; apply lookup_insert_ne; congruence|].
  exists (Audit.append (audit_log k) ts
            {| Audit.event_type := Audit.ModuleLoaded (name m) (checksum m);
               Audit.event_source := "kernel" |}).1.
  split; [|split; reflexivity].
  unfold Audit.append, Audit.get_all_entries. cbn [fst snd Audit.entries]. apply last_snoc.
Qed.
End LaunchSuccess.

Definition hello_fs (p : string) : option (list Z) :=
  if String.eqb p "hello.json" then Some (Bytes.bytes_of_string "descriptor")
  else if String.eqb p "hello.wasm" then Some (Bytes.bytes_of_string "hello")
  else None.

Lemma launch_success_witness :
  get_module_capabilities
    (registry (launch_module hello_fs (fun _ => Some hello_manifest) (fun _ _ _ _ => true) unit
                 (fun _ => Some tt) (fun _ => true) (fun _ _ => true) kernel0 0 "hello.json").2)
    "hello" = Some [Log].
Proof.
  destruct (launch_success hello_fs (fun _ => Some hello_manifest) (fun _ _ _ _ => true) unit
              (fun _ => Some tt) (fun _ => true) (fun _ _ => true) kernel0 0 "hello.json"
              ltac:(vm_compute; reflexivity))
    as (mbytes & m & bytes & _ & Hp & _ & _ & _ & Hcaps & _).
  injection Hp as <-. exact Hcaps.
Defined.

End KernelExtras.

Module SigExtras.
Import Bytes Sig.

Definition byte_pair_ok (b : Z) : bool :=
  match hex_val (hex_digit (Z.shiftr b 4)), hex_val (hex_digit (Z.land b 15)) with
  | Some x, Some y => Z.eqb (Z.lor (Z.shiftl x 4) y) b
  | _, _ => false
  end.

Lemma byte_pair_ok_all : forallb byte_pair_ok (map Z.of_nat (seq 0 256)) = true.
Proof. vm_compute. reflexivity. Qed.

Lemma byte_pair (b : Z) : 0 <= b < 256 ->
  exists x y, hex_val (hex_digit (Z.shiftr b 4)) = Some x /\
              hex_val (hex_digit (Z.land b 15)) = Some y /\ Z.lor (Z.shiftl x 4) y = b.
Proof.
  intros Hb. pose proof byte_pair_ok_all as H. rewrite forallb_forall in H.
  specialize (H b). unfold byte_pair_ok in H.
  assert (Hin : In b (map Z.of_nat (seq 0 256))).
  { apply in_map_iff. exists (Z.to_nat b). split; [lia|]. apply in_seq. lia. }
  specialize (H Hin).
  destruct (hex_val (hex_digit (Z.shiftr b 4))) as [x|]; [|discriminate].
  destruct (hex_val (hex_digit (Z.land b 15))) as [y|]; [|discriminate].
  apply Z.eqb_eq in H. eauto.
Qed.

Lemma decode_pairs_encode (bs : list Z) (i : nat) :
  Forall (fun b => 0 <= b < 256) bs -> decode_pairs (hex_encode bs) i = Ok bs.
Proof.
  intros H. revert i. induction H as [|b bs Hb _ IH]; intros i; [reflexivity|].
  cbn [hex_encode decode_pairs]. destruct (byte_pair b Hb) as (x & y & Hx & Hy & Hxy).
  rewrite Hx, Hy, IH, Hxy. reflexivity.
Qed.

Lemma length_hex_encode (bs : list Z) : String.length (hex_encode bs) = (2 * List.length bs)%nat.
Proof. induction bs as [|b bs IH]; [reflexivity|]. cbn [hex_encode String.length List.length]. lia. Qed.

Lemma hex_decode_encode (bs : list Z) :
  Forall (fun b => 0 <= b < 256) bs -> hex_decode (hex_encode bs) = Ok bs.
Proof.
  intros H. unfold hex_decode. rewrite length_hex_encode.
  replace (Nat.odd (2 * List.length bs)) with false
    by (rewrite Nat.odd_mul; reflexivity).
  apply decode_pairs_encode, H.
Qed.

(** [hex::decode] undoes [hex::encode] on bytes, and refuses a string of
    odd length with [OddLength] before reading any digit; so
    [SignatureVerifier::new] of the hex of a byte string builds the same
    verifier as [from_bytes] of those bytes: it is accepted exactly when
    the key has 32 bytes, and [public_key_hex] gives the hex back. *)
Theorem hex_key_roundtrip (bs : list Z) (s : string)
    (Hbytes : Forall (fun b => 0 <= b < 256) bs) :
  hex_decode (hex_encode bs) = Ok bs /\
  (Nat.odd (String.length s) = true -> hex_decode s = Err OddLength) /\
  verifier_new (hex_encode bs) = verifier_from_bytes bs /\
  verifier_from_bytes bs = (if (List.length bs =? 32)%nat then Ok {| public_key := bs |}
                            else Err InvalidPublicKey) /\
  (forall v, verifier_new (hex_encode bs) = Ok v -> verifier_public_key_hex v = hex_encode bs).
Proof.
  pose proof (hex_decode_encode bs Hbytes) as Hd.
  split; [exact Hd|]. split; [intros Ho; unfold hex_decode; rewrite Ho; reflexivity|].
  assert (Hn : verifier_new (hex_encode bs) = verifier_from_bytes bs)
    by (unfold verifier_new; rewrite Hd; reflexivity).
  split; [exact Hn|]. split.
  - unfold verifier_from_bytes. destruct (List.length bs =? 32)%nat; reflexivity.
  - intros v. rewrite Hn. unfold verifier_from_bytes.
    destruct (List.length bs =? 32)%nat; [|discriminate]. intros [= <-]. reflexivity.
Qed.

Lemma hex_key_roundtrip_witness :
  verifier_new (hex_encode (repeat 7 32)) = Ok {| public_key := repeat 7 32 |}.
Proof.
  destruct (hex_key_roundtrip (repeat 7 32) "" ltac:(repeat constructor; lia))
    as (_ & _ & Hn & Hb & _).
  rewrite Hn, Hb. reflexivity.
Defined.

(** Whenever the Ed25519 primitive returns 64-byte signatures that its
    verification accepts under the signer's public key, a module signed
    with [sign_module] over its own checksum passes [verify_module] of a
    verifier built from the signer's [public_key_hex] (a 32-byte key). *)
Theorem sign_verify_module_roundtrip
    (ed25519_verify : list Z -> list Z -> list Z -> bool) (KeyPair : Type)
    (ed25519_sign : KeyPair -> list Z -> list Z) (ed25519_public_key : KeyPair -> list Z)
    (Hsig_len : forall kp data, List.length (ed25519_sign kp data) = 64%nat)
    (Hsig_bytes : forall kp data, Forall (fun b => 0 <= b < 256) (ed25519_sign kp data))
    (Hcorrect : forall kp data,
       ed25519_verify (ed25519_public_key kp) data (ed25519_sign kp data) = true)
    (kp : KeyPair) (bytes : list Z)
    (Hpk_len : List.length (ed25519_public_key kp) = 32%nat)
    (Hpk_bytes : Forall (fun b => 0 <= b < 256) (ed25519_public_key kp)) :
  exists v, verifier_new (signer_public_key_hex KeyPair ed25519_public_key kp) = Ok v /\
    verify_module ed25519_verify v bytes (Sha256.hex_digest bytes)
      (sign_module KeyPair ed25519_sign kp bytes (Sha256.hex_digest bytes)) = Ok tt.
Proof.
  exists {| public_key := ed25519_public_key kp |}. split.
  - unfold verifier_new, signer_public_key_hex. rewrite hex_decode_encode by exact Hpk_bytes.
    rewrite Hpk_len. reflexivity.
  - unfold verify_module. rewrite String.eqb_refl. cbn [negb].
    unfold verify, sign_module, sign.
    rewrite hex_decode_encode by apply Hsig_bytes. rewrite Hsig_len. cbn [negb Nat.eqb].
    cbn [public_key]. rewrite Hcorrect. reflexivity.
Qed.

Lemma sign_verify_module_roundtrip_witness :
  exists v, verifier_new (signer_public_key_hex unit (fun _ => repeat 1 32) tt) = Ok v /\
    verify_module (fun pk data sg => bool_decide (sg = repeat 0 64)) v [1; 2; 3]
      (Sha256.hex_digest [1; 2; 3])
      (sign_module unit (fun _ _ => repeat 0 64) tt [1; 2; 3] (Sha256.hex_digest [1; 2; 3]))
    = Ok tt.
Proof.
  apply (sign_verify_module_roundtrip (fun pk data sg => bool_decide (sg = repeat 0 64)) unit
           (fun _ _ => repeat 0 64) (fun _ => repeat 1 32)).
  - intros; reflexivity.
  - intros; repeat constructor; lia.
  - intros; apply bool_decide_eq_true; reflexivity.
  - reflexivity.
  - repeat constructor; lia.
Defined.

End SigExtras.
